(** * ICN testnet monitor: log-driven topology reconstruction

    A shallow embedding of [src/testnet/monitor.py] (the classes [Node],
    [Connection], [Message], the five line grammars, the two classifiers and
    [parse_logs]) together with the properties of the topology store that
    the specification states about it.

    Modelling conventions.
    - A Python [str] is the [string] of the bytes of its UTF-8 encoding.
      The literals of the program are ASCII, and a byte below 128 is never
      part of a longer character, so searching for a literal, splitting at
      one, [.*] up to the end of a line and the comparison of two texts
      give the same result on the bytes as on the characters.  Where the
      program counts characters or asks for their class ([len], a slice,
      [str.split()]) the model decodes: see [Str.len], [Str.take_chars] and
      [Str.space_width].  A line is the string yielded by iterating over
      the open file, so it normally ends in a newline, which the regular
      expressions' [.] never matches.
    - The module-level globals [nodes], [connections] and [messages] are the
      fields of one record that every operation takes and returns.  [nodes]
      is a Python dict that is iterated over, so it is an association list in
      insertion order; [connections] is only looked up and inserted into, so
      it is a [gmap]; [peers] and [tunnels] are [gset]s.
    - Wall-clock values ([time.time()], [os.path.getmtime]) are rationals;
      every finite float is one, and comparing a float with the integer
      thresholds 10 and 30 is exact.  [time.time()] is an oracle indexed by
      the number of calls made so far.
    - [open] raising on a source, or the iteration over the opened file
      raising before its end (a line that cannot be decoded), aborts the
      pass: [parse_logs] returns [None].  Nothing catches the exception, so
      the monitor ends with it and the store it leaves is not observed. *)

From Stdlib Require Import Ascii String QArith Lqa.
From stdpp Require Import gmap strings list fin_maps.

Open Scope string_scope.
Open Scope list_scope.
Open Scope nat_scope.

#[local] Set Warnings "-clear-no-such-hyp".

(** ** Strings: the Python operations the monitor uses *)

Module Str.

(** [s.startswith(p)], returning the rest of [s] after [p]. *)
Fixpoint strip_prefix (p s : string) : option string :=
  match p with
  | EmptyString => Some s
  | String a p' =>
      match s with
      | String b s' => if Ascii.eqb a b then strip_prefix p' s' else None
      | EmptyString => None
      end
  end.

Definition startswith (p s : string) : bool :=
  match strip_prefix p s with Some _ => true | None => false end.

(** [needle in hay] *)
Fixpoint contains (needle hay : string) : bool :=
  if startswith needle hay then true
  else match hay with
       | String _ hay' => contains needle hay'
       | EmptyString => false
       end.

(** [s.endswith(suffix)] *)
Fixpoint endswith (suffix s : string) : bool :=
  if String.eqb s suffix then true
  else match s with
       | String _ s' => endswith suffix s'
       | EmptyString => false
       end.

(** [s.split(sep)] for a one-character separator: one more part than
    there are separators, empty parts kept. *)
Fixpoint split (sep : ascii) (s : string) : list string :=
  match s with
  | EmptyString => [EmptyString]
  | String c s' =>
      if Ascii.eqb c sep then EmptyString :: split sep s'
      else match split sep s' with
           | p :: ps => String c p :: ps
           | [] => [String c EmptyString]
           end
  end.

(** [s.rfind(c)]: index of the last occurrence, -1 when there is none. *)
Fixpoint rfind_from (c : ascii) (s : string) (i found : Z) : Z :=
  match s with
  | EmptyString => found
  | String b s' => rfind_from c s' (i + 1)%Z (if Ascii.eqb b c then i else found)
  end.

Definition rfind (c : ascii) (s : string) : Z := rfind_from c s 0%Z (-1)%Z.

(** the ASCII characters for which [str.isspace] holds *)
Definition isspace (c : ascii) : bool :=
  let n := nat_of_ascii c in
  (Nat.leb 9 n && Nat.leb n 13) || (Nat.leb 28 n && Nat.leb n 32).

(** the byte [c] has the value [n] *)
Definition is_byte (n : nat) (c : ascii) : bool := Nat.eqb (nat_of_ascii c) n.

(** The number of bytes of the white-space character that [s] starts
    with, 0 when it starts with none.  Beyond ASCII, [str.isspace] holds
    for U+0085, U+00A0 (C2 85, C2 A0), U+1680 (E1 9A 80), U+2000 to U+200A,
    U+2028, U+2029, U+202F (E2 80 80 to 8A, A8, A9, AF), U+205F (E2 81 9F)
    and U+3000 (E3 80 80). *)
Definition space_width (s : string) : nat :=
  match s with
  | String c (String d rest) =>
      if isspace c then 1
      else if is_byte 194 c then
        if is_byte 133 d || is_byte 160 d then 2 else 0
      else
        match rest with
        | String e _ =>
            if is_byte 225 c then
              if is_byte 154 d && is_byte 128 e then 3 else 0
            else if is_byte 226 c then
              if is_byte 128 d
                 && ((Nat.leb 128 (nat_of_ascii e) && Nat.leb (nat_of_ascii e) 138)
                     || is_byte 168 e || is_byte 169 e || is_byte 175 e)
              then 3
              else if is_byte 129 d && is_byte 159 e then 3 else 0
            else if is_byte 227 c then
              if is_byte 128 d && is_byte 128 e then 3 else 0
            else 0
        | EmptyString => 0
        end
  | String c EmptyString => if isspace c then 1 else 0
  | EmptyString => 0
  end.

(** the text up to the first white-space character *)
Fixpoint take_word (s : string) : string :=
  match s with
  | EmptyString => EmptyString
  | String c s' =>
      match space_width s with
      | O => String c (take_word s')
      | S _ => EmptyString
      end
  end.

(** the first word of [s] once [pending] more bytes of a white-space
    character have been passed over *)
Fixpoint skip_spaces (pending : nat) (s : string) : option string :=
  match s with
  | EmptyString => None
  | String _ s' =>
      match pending with
      | S k => skip_spaces k s'
      | O =>
          match space_width s with
          | O => Some (take_word s)
          | S k => skip_spaces k s'
          end
      end
  end.

(** [s.split()[0]]: the first whitespace-delimited word; [None] stands
    for the [IndexError] raised when there is none. *)
Definition first_word (s : string) : option string := skip_spaces 0 s.

(** a continuation byte of a multi-byte character: 10xxxxxx *)
Definition is_cont (c : ascii) : bool :=
  Nat.leb 128 (nat_of_ascii c) && Nat.leb (nat_of_ascii c) 191.

(** [len(s)]: the number of characters, every byte but a continuation
    byte starting one *)
Fixpoint len (s : string) : nat :=
  match s with
  | EmptyString => 0
  | String c s' => if is_cont c then len s' else S (len s')
  end.

(** [s[:k]] for [0 <= k]: the first [k] characters, or all of [s] when it
    has fewer *)
Fixpoint take_chars (k : nat) (s : string) : string :=
  match s with
  | EmptyString => EmptyString
  | String c s' =>
      if is_cont c then String c (take_chars k s')
      else match k with
           | O => EmptyString
           | S k' => String c (take_chars k' s')
           end
  end.

End Str.

(** ** os.path *)

Module OsPath.

(** [posixpath.basename]: what follows the last slash. *)
Definition basename (p : string) : string :=
  let i := Z.to_nat (Str.rfind "/"%char p + 1) in
  String.substring i (String.length p - i) p.

(** the [while] loop of [genericpath._splitext]: is some character of
    [p[i:dot]] not a dot? *)
Fixpoint has_non_dot (p : string) (i span : nat) : bool :=
  match span with
  | O => false
  | S span' =>
      match String.get i p with
      | Some c => if Ascii.eqb c "."%char then has_non_dot p (S i) span' else true
      | None => true
      end
  end.

(** [posixpath.splitext]: split at the last dot of the last path
    component, leading dots of the component not counting. *)
Definition splitext (p : string) : string * string :=
  let sepIndex := Str.rfind "/"%char p in
  let dotIndex := Str.rfind "."%char p in
  if (sepIndex <? dotIndex)%Z
     && has_non_dot p (Z.to_nat (sepIndex + 1)) (Z.to_nat (dotIndex - (sepIndex + 1)))
  then (String.substring 0 (Z.to_nat dotIndex) p,
        String.substring (Z.to_nat dotIndex) (String.length p - Z.to_nat dotIndex) p)
  else (p, EmptyString).

End OsPath.

(** ** Regular expressions

    The patterns of the monitor are sequences of literal text and [.*]
    (greedy, possibly capturing) or [.*?] (lazy).  [match_here] is the
    backtracking matcher anchored at the start of the text ([re.match]),
    [search] tries every start position from the left ([re.search]); both
    return the captured groups in order. *)

Module Re.

Inductive Item :=
| Lit (s : string)                  (* literal text *)
| Star (greedy capture : bool).     (* [.*] or [.*?], in a group or not *)

Definition newline : ascii := "010"%char.

(** [.] matches every character but the newline. *)
Definition dot (c : ascii) : bool := negb (Ascii.eqb c newline).

Definition emit (capture : bool) (acc : string) (r : option (list string)) :
    option (list string) :=
  match r with
  | Some caps => Some (if capture then String.rev acc :: caps else caps)
  | None => None
  end.

(** [star greedy capture k acc s]: [acc] holds, reversed, what the star
    has consumed; [k] matches the rest of the pattern. *)
Fixpoint star (greedy capture : bool) (k : string -> option (list string))
    (acc s : string) : option (list string) :=
  let stop := emit capture acc (k s) in
  match s with
  | String c s' =>
      if dot c then
        if greedy then
          match star greedy capture k (String c acc) s' with
          | Some r => Some r
          | None => stop
          end
        else
          match stop with
          | Some r => Some r
          | None => star greedy capture k (String c acc) s'
          end
      else stop
  | EmptyString => stop
  end.

Fixpoint match_here (p : list Item) : string -> option (list string) :=
  match p with
  | [] => fun _ => Some []
  | Lit l :: p' => fun s =>
      match Str.strip_prefix l s with
      | Some rest => match_here p' rest
      | None => None
      end
  | Star g c :: p' => star g c (match_here p') EmptyString
  end.

Fixpoint search (p : list Item) (s : string) : option (list string) :=
  match match_here p s with
  | Some r => Some r
  | None =>
      match s with
      | String _ s' => search p s'
      | EmptyString => None
      end
  end.

End Re.

Import Re.

(** Regular expressions for log parsing *)
Definition NODE_INITIALIZED_RE : list Item :=
  [Lit "Node initialized with overlay address: "; Star true true].
Definition PEER_CONNECTED_RE : list Item :=
  [Lit "Connected to peer: "; Star true true].
Definition TUNNEL_CREATED_RE : list Item :=
  [Lit "Created tunnel to "; Star true true; Lit " using "; Star true true].
Definition MESSAGE_SENT_RE : list Item :=
  [Lit "Sending "; Star true false; Lit " to "; Star true true; Lit ": "; Star true true].
Definition MESSAGE_RECEIVED_RE : list Item :=
  [Lit "Received message from "; Star true true; Lit ": "; Star true true].
(** the pattern of [re.match(r"\[(.*?)\]", line)] *)
Definition TIMESTAMP_RE : list Item :=
  [Lit "["; Star false true; Lit "]"].

(** ** Data structures *)

Inductive Status := Unknown | Offline | Inactive | Active.

(** the result of [datetime.strptime(_, "%Y-%m-%d")] *)
Record datetime := { year : nat; month : nat; day : nat }.

(** [timestamp or time.time()]: the date parsed from the line, or the
    wall clock at ingestion *)
Inductive Timestamp :=
| Parsed (d : datetime)
| WallClock (t : Q).

Module Node.

Record t := mk {
  node_id : string;
  federation : option string;
  address : option string;
  peers : gset string;
  tunnels : gset string;
  messages_sent : nat;
  messages_received : nat;
  last_seen : Q;
  status : Status
}.

(** [Node.__init__] *)
Definition init (node_id : string) (federation : option string) : t :=
  mk node_id federation None ∅ ∅ 0 0 0%Q Unknown.

Definition set_address (a : string) (n : t) : t :=
  mk (node_id n) (federation n) (Some a) (peers n) (tunnels n)
     (messages_sent n) (messages_received n) (last_seen n) (status n).

Definition add_peer (a : string) (n : t) : t :=
  mk (node_id n) (federation n) (address n) ({[a]} ∪ peers n) (tunnels n)
     (messages_sent n) (messages_received n) (last_seen n) (status n).

Definition add_tunnel (a : string) (n : t) : t :=
  mk (node_id n) (federation n) (address n) (peers n) ({[a]} ∪ tunnels n)
     (messages_sent n) (messages_received n) (last_seen n) (status n).

Definition incr_sent (n : t) : t :=
  mk (node_id n) (federation n) (address n) (peers n) (tunnels n)
     (S (messages_sent n)) (messages_received n) (last_seen n) (status n).

Definition incr_received (n : t) : t :=
  mk (node_id n) (federation n) (address n) (peers n) (tunnels n)
     (messages_sent n) (S (messages_received n)) (last_seen n) (status n).

Definition set_last_seen (q : Q) (n : t) : t :=
  mk (node_id n) (federation n) (address n) (peers n) (tunnels n)
     (messages_sent n) (messages_received n) q (status n).

Definition set_status (s : Status) (n : t) : t :=
  mk (node_id n) (federation n) (address n) (peers n) (tunnels n)
     (messages_sent n) (messages_received n) (last_seen n) s.

(** [Node.update_status], [now] being what [time.time()] returned *)
Definition update_status (now : Q) (self : t) : t :=
  if Qlt_le_dec 30 (now - last_seen self) then set_status Offline self
  else if Qlt_le_dec 10 (now - last_seen self) then set_status Inactive self
  else set_status Active self.

End Node.

Module Connection.

Record t := mk {
  source : string;
  dest : string;
  tunnel_type : option string;
  messages : nat;
  last_message : Q
}.

(** [Connection.__init__] *)
Definition init (source dest : string) : t := mk source dest None 0 0%Q.

Definition set_tunnel_type (ty : string) (c : t) : t :=
  mk (source c) (dest c) (Some ty) (messages c) (last_message c).

(** [messages += 1; last_message = time.time()] *)
Definition count_message (now : Q) (c : t) : t :=
  mk (source c) (dest c) (tunnel_type c) (S (messages c)) now.

End Connection.

Module Message.

Record t := mk {
  source : string;
  dest : string;
  content : string;
  timestamp : Timestamp
}.

(** what a record says, its time apart *)
Definition triple (m : t) : string * string * string :=
  (source m, dest m, content m).

End Message.

(** The three module-level globals, and how many times [time.time()] has
    been called. *)
Record Store := mkStore {
  nodes : list (string * Node.t);
  connections : gmap (string * string) Connection.t;
  messages : list Message.t;
  clock : nat
}.

Definition initial : Store := mkStore [] ∅ [] 0.

Definition set_nodes (ns : list (string * Node.t)) (st : Store) : Store :=
  mkStore ns (connections st) (messages st) (clock st).
Definition set_connections (cs : gmap (string * string) Connection.t) (st : Store) : Store :=
  mkStore (nodes st) cs (messages st) (clock st).
Definition set_messages (ms : list Message.t) (st : Store) : Store :=
  mkStore (nodes st) (connections st) ms (clock st).
Definition tick (st : Store) : Store :=
  mkStore (nodes st) (connections st) (messages st) (S (clock st)).

(** *** The [nodes] dict *)

(** [nodes.get(id)] *)
Fixpoint lookup_node (id : string) (ns : list (string * Node.t)) : option Node.t :=
  match ns with
  | [] => None
  | (k, n) :: ns' => if decide (k = id) then Some n else lookup_node id ns'
  end.

(** [nodes[id].field = ...]: the dict keeps its order.  Every use is on an
    id that [parse_logs] has put into the dict just before, so the
    [KeyError] of a missing id cannot happen and the model leaves the dict
    as it is there. *)
Fixpoint alter_node (f : Node.t -> Node.t) (id : string) (ns : list (string * Node.t)) :
    list (string * Node.t) :=
  match ns with
  | [] => []
  | (k, n) :: ns' =>
      if decide (k = id) then (k, f n) :: ns' else (k, n) :: alter_node f id ns'
  end.

(** [if id not in nodes: nodes[id] = n]: a new key goes last. *)
Definition ensure_node (id : string) (n : Node.t) (ns : list (string * Node.t)) :
    list (string * Node.t) :=
  match lookup_node id ns with
  | Some _ => ns
  | None => ns ++ [(id, n)]
  end.

(** The ids, in dict order, of the nodes whose address is [addr]: the
    nodes selected by
    [for other_id, other_node in nodes.items(): if other_node.address == addr]. *)
Definition owners (addr : string) (ns : list (string * Node.t)) : list string :=
  (filter (λ kn, Node.address kn.2 = Some addr) ns).*1.

(** ** Classifiers *)

(** Extract node ID from log filename. *)
Definition parse_node_id_from_filename (filename : string) : string :=
  (OsPath.splitext (OsPath.basename filename)).1.

(** Extract federation from node ID. *)
Definition parse_federation_from_node_id (node_id : string) : option string :=
  if Str.contains "federation-a" node_id then Some "federation-a"
  else if Str.contains "federation-b" node_id then Some "federation-b"
  else if Str.contains "federation-c" node_id then Some "federation-c"
  else if Str.contains "cross-federation" node_id then
    let parts := Str.split "-"%char node_id in
    if 3 <=? length parts then
      match last parts with
      | Some p =>
          if String.eqb p "ab" then Some "federation-a+federation-b"
          else if String.eqb p "bc" then Some "federation-b+federation-c"
          else if String.eqb p "ac" then Some "federation-a+federation-c"
          else None
      | None => None
      end
    else None
  else None.

(** ** Line grammar *)

Inductive Event :=
| NodeInitialized (addr : string)
| PeerConnected (peer_addr : string)
| TunnelCreated (tunnel_dest tunnel_type : string)
| MessageSent (dest_addr message_content : string)
| MessageReceived (source_addr message_content : string)
| Unmatched.

(** [match.group(i)] *)
Definition group (i : nat) (caps : list string) : string :=
  nth (i - 1) caps EmptyString.

(** The cascade of [search]es of the loop body, each ending in [continue]:
    the first grammar that matches decides. *)
Definition parse_line (line : string) : Event :=
  match search NODE_INITIALIZED_RE line with
  | Some m => NodeInitialized (group 1 m)
  | None =>
  match search PEER_CONNECTED_RE line with
  | Some m => PeerConnected (group 1 m)
  | None =>
  match search TUNNEL_CREATED_RE line with
  | Some m => TunnelCreated (group 1 m) (group 2 m)
  | None =>
  match search MESSAGE_SENT_RE line with
  | Some m => MessageSent (group 1 m) (group 2 m)
  | None =>
  match search MESSAGE_RECEIVED_RE line with
  | Some m => MessageReceived (group 1 m) (group 2 m)
  | None => Unmatched
  end end end end end.

(** [messages.append(msg); if len(messages) > 100: messages.pop(0)] *)
Definition push_message {A : Type} (msg : A) (msgs : list A) : list A :=
  let msgs' := msgs ++ [msg] in
  if 100 <? length msgs' then tail msgs' else msgs'.

(** [if conn_key not in connections: connections[conn_key] = Connection(..)] *)
Definition ensure_connection (src dst : string)
    (cs : gmap (string * string) Connection.t) : gmap (string * string) Connection.t :=
  match cs !! (src, dst) with
  | Some _ => cs
  | None => <[(src, dst) := Connection.init src dst]> cs
  end.

(** the body of the tunnel loop: set the type of the connection, creating
    it when it is missing *)
Definition set_tunnel (src dst ty : string)
    (cs : gmap (string * string) Connection.t) : gmap (string * string) Connection.t :=
  match cs !! (src, dst) with
  | Some c => <[(src, dst) := Connection.set_tunnel_type ty c]> cs
  | None => <[(src, dst) := Connection.set_tunnel_type ty (Connection.init src dst)]> cs
  end.

(** ** The ingestion pass *)

Section Monitor.

(** [time.time()]: the value returned by the call number [i] *)
Variable time_time : nat -> Q.
(** [datetime.strptime(s, "%Y-%m-%d")], [None] for [ValueError] *)
Variable strptime : string -> option datetime.

(** the timestamp extraction at the head of the loop body *)
Definition parse_timestamp (line : string) : option datetime :=
  match match_here TIMESTAMP_RE line with
  | Some m =>
      match Str.first_word (group 1 m) with
      | Some timestamp_str => strptime timestamp_str
      | None => None
      end
  | None => None
  end.

Definition on_node_initialized (node_id addr : string) (st : Store) : Store :=
  set_nodes (alter_node (Node.set_address addr) node_id (nodes st)) st.

Definition on_peer_connected (node_id peer_addr : string) (st : Store) : Store :=
  let st1 := set_nodes (alter_node (Node.add_peer peer_addr) node_id (nodes st)) st in
  foldl (λ s other_id, set_connections (ensure_connection node_id other_id (connections s)) s)
        st1 (owners peer_addr (nodes st1)).

Definition on_tunnel_created (node_id tunnel_dest tunnel_type : string) (st : Store) : Store :=
  let st1 := set_nodes (alter_node (Node.add_tunnel tunnel_dest) node_id (nodes st)) st in
  foldl (λ s other_id,
           set_connections (set_tunnel node_id other_id tunnel_type (connections s)) s)
        st1 (owners tunnel_dest (nodes st1)).

(** the body of the message loop, for one node that has the address *)
Definition deliver (node_id message_content : string) (timestamp : option datetime)
    (st : Store) (other_id : string) : Store :=
  let st1 :=
    match connections st !! (node_id, other_id) with
    | Some c =>
        tick (set_connections
                (<[(node_id, other_id) := Connection.count_message (time_time (clock st)) c]>
                   (connections st)) st)
    | None => st
    end in
  match timestamp with
  | Some d =>
      set_messages
        (push_message (Message.mk node_id other_id message_content (Parsed d)) (messages st1))
        st1
  | None =>
      tick (set_messages
              (push_message
                 (Message.mk node_id other_id message_content
                    (WallClock (time_time (clock st1))))
                 (messages st1))
              st1)
  end.

Definition on_message_sent (node_id dest_addr message_content : string)
    (timestamp : option datetime) (st : Store) : Store :=
  let st1 := set_nodes (alter_node Node.incr_sent node_id (nodes st)) st in
  foldl (deliver node_id message_content timestamp) st1 (owners dest_addr (nodes st1)).

Definition on_message_received (node_id : string) (st : Store) : Store :=
  set_nodes (alter_node Node.incr_received node_id (nodes st)) st.

(** the body of [for line in f] *)
Definition process_line (node_id : string) (st : Store) (line : string) : Store :=
  match parse_line line with
  | NodeInitialized addr => on_node_initialized node_id addr st
  | PeerConnected peer_addr => on_peer_connected node_id peer_addr st
  | TunnelCreated tunnel_dest tunnel_type =>
      on_tunnel_created node_id tunnel_dest tunnel_type st
  | MessageSent dest_addr message_content =>
      on_message_sent node_id dest_addr message_content (parse_timestamp line) st
  | MessageReceived _ _ => on_message_received node_id st
  | Unmatched => st
  end.

(** What a pass finds when it opens a log file and iterates over it. *)
Inductive Source :=
| OpenFails                      (* [open] raises *)
| ReadFails                      (* the iteration raises before the end of the file *)
| Lines (lines : list string).   (* the lines of the file, read to its end *)

(** One entry of [os.listdir(LOG_DIR)] as a pass finds it: its
    modification time when [os.path.exists] holds, and what reading it
    gives. *)
Record LogFile := mkLogFile {
  filename : string;
  mtime : option Q;
  source : Source
}.

(** the lines of an entry that is opened and read to its end *)
Definition content (f : LogFile) : option (list string) :=
  match source f with
  | Lines lines => Some lines
  | OpenFails => None
  | ReadFails => None
  end.

(** the part of the loop body that precedes [open] *)
Definition register (f : LogFile) (st : Store) : Store :=
  let node_id := parse_node_id_from_filename (filename f) in
  let federation := parse_federation_from_node_id node_id in
  let ns := ensure_node node_id (Node.init node_id federation) (nodes st) in
  match mtime f with
  | Some t => set_nodes (alter_node (Node.set_last_seen t) node_id ns) st
  | None => set_nodes ns st
  end.

(** The body of [for filename in os.listdir(LOG_DIR)].  When [open]
    raises, or the iteration raises after some lines have been processed,
    the exception leaves [parse_logs]: the pass has no result. *)
Definition process_file (f : LogFile) (st : Store) : option Store :=
  if Str.endswith ".log" (filename f) then
    match content f with
    | Some lines =>
        Some (foldl (process_line (parse_node_id_from_filename (filename f)))
                    (register f st) lines)
    | None => None
    end
  else Some st.

Fixpoint process_files (listing : list LogFile) (st : Store) : option Store :=
  match listing with
  | [] => Some st
  | f :: listing' =>
      match process_file f st with
      | Some st' => process_files listing' st'
      | None => None
      end
  end.

(** [for node in nodes.values(): node.update_status()], each call
    reading the clock *)
Fixpoint update_all (ns : list (string * Node.t)) (now : nat) : list (string * Node.t) :=
  match ns with
  | [] => []
  | (k, n) :: ns' => (k, Node.update_status (time_time now) n) :: update_all ns' (S now)
  end.

Definition update_statuses (st : Store) : Store :=
  mkStore (update_all (nodes st) (clock st)) (connections st) (messages st)
          (clock st + length (nodes st)).

(** Parse all log files and update data structures. *)
Definition parse_logs (listing : list LogFile) (st : Store) : option Store :=
  match process_files listing st with
  | Some st' => Some (update_statuses st')
  | None => None
  end.

(** the passes of [monitor_loop], one directory snapshot per pass *)
Fixpoint run (passes : list (list LogFile)) (st : Store) : option Store :=
  match passes with
  | [] => Some st
  | listing :: passes' =>
      match parse_logs listing st with
      | Some st' => run passes' st'
      | None => None
      end
  end.

(** The stores the monitor can be in, between any two steps of any pass. *)
Inductive reachable : Store → Prop :=
| reachable_initial : reachable initial
| reachable_register f st : reachable st → reachable (register f st)
| reachable_line node_id st line : reachable st → reachable (process_line node_id st line)
| reachable_statuses st : reachable st → reachable (update_statuses st).

End Monitor.

(** ** What a store says about a node *)

Definition sent_of (st : Store) (id : string) : nat :=
  from_option Node.messages_sent 0 (lookup_node id (nodes st)).

Definition received_of (st : Store) (id : string) : nat :=
  from_option Node.messages_received 0 (lookup_node id (nodes st)).

Definition address_of (st : Store) (id : string) : option string :=
  lookup_node id (nodes st) ≫= Node.address.

Definition peers_of (st : Store) (id : string) : gset string :=
  from_option Node.peers ∅ (lookup_node id (nodes st)).

Definition tunnels_of (st : Store) (id : string) : gset string :=
  from_option Node.tunnels ∅ (lookup_node id (nodes st)).

Definition known (st : Store) (id : string) : Prop :=
  is_Some (lookup_node id (nodes st)).

(** what a line does to the record of the node whose log it is in *)
Definition node_effect (ev : Event) : Node.t → Node.t :=
  match ev with
  | NodeInitialized addr => Node.set_address addr
  | PeerConnected peer_addr => Node.add_peer peer_addr
  | TunnelCreated tunnel_dest _ => Node.add_tunnel tunnel_dest
  | MessageSent _ _ => Node.incr_sent
  | MessageReceived _ _ => Node.incr_received
  | Unmatched => λ n, n
  end.

(** the weights of the two counters of a node *)
Definition sent_weight (ev : Event) : nat :=
  match ev with MessageSent _ _ => 1 | _ => 0 end.
Definition received_weight (ev : Event) : nat :=
  match ev with MessageReceived _ _ => 1 | _ => 0 end.

(** [cs'] has every connection of [cs], with a message count that is not
    smaller *)
Definition conn_le (cs cs' : gmap (string * string) Connection.t) : Prop :=
  ∀ k c, cs !! k = Some c →
         ∃ c', cs' !! k = Some c' ∧ Connection.messages c ≤ Connection.messages c'.


(** every log source of the listing can be opened and read to its end *)
Definition readable (listing : list LogFile) : Prop :=
  ∀ f, f ∈ listing → Str.endswith ".log" (filename f) = true → is_Some (content f).

(** the overlay address an event asks the store to resolve *)
Definition target (ev : Event) : option string :=
  match ev with
  | PeerConnected a => Some a
  | TunnelCreated a _ => Some a
  | MessageSent a _ => Some a
  | _ => None
  end.

(** two connection records that differ at most in their tunnel type *)
Definition same_but_tunnel_type (c c' : Connection.t) : Prop :=
  Connection.source c = Connection.source c'
  ∧ Connection.dest c = Connection.dest c'
  ∧ Connection.messages c = Connection.messages c'
  ∧ Connection.last_message c = Connection.last_message c'.


(** ** Counters

    A counter is a field [p] of the node record to which an event [ev]
    adds [w ev]. *)

Definition counter (p : Node.t → nat) (st : Store) (id : string) : nat :=
  from_option p 0 (lookup_node id (nodes st)).

(** what the lines of a source add *)
Definition weight (w : Event → nat) (lines : list string) : nat :=
  foldr (λ line acc, w (parse_line line) + acc) 0 lines.

(** what one entry of the listing adds to the counter of [id] *)
Definition file_weight (w : Event → nat) (id : string) (f : LogFile) : nat :=
  if Str.endswith ".log" (filename f)
     && bool_decide (parse_node_id_from_filename (filename f) = id)
  then weight w (default [] (content f)) else 0.

Definition listing_weight (w : Event → nat) (id : string) (listing : list LogFile) : nat :=
  foldr (λ f acc, file_weight w id f + acc) 0 listing.

(** ** Scenarios

    Concrete log directories, and what the monitor makes of them. *)

Module Scenario.

(** a line of a log file, with its line terminator *)
Definition ln (s : string) : string := String.append s (String Re.newline EmptyString).

(** a clock that stands still, and a [strptime] that rejects every text *)
Definition clock0 : nat → Q := λ _, 0%Q.
Definition no_date : string → option datetime := λ _, None.

(** the two sources of the end-to-end scenario of the specification *)
Definition A_log (t : option Q) : LogFile :=
  mkLogFile "A.log" t
    (Lines [ln "Node initialized with overlay address: addr-A";
           ln "Sending msg to addr-B: hello"]).

Definition B_log (t : option Q) : LogFile :=
  mkLogFile "B.log" t
    (Lines [ln "Node initialized with overlay address: addr-B"]).

(** [A.log] when node A has also connected to its peer before sending *)
Definition A_log_connected (t : option Q) : LogFile :=
  mkLogFile "A.log" t
    (Lines [ln "Node initialized with overlay address: addr-A";
           ln "Connected to peer: addr-B";
           ln "Sending msg to addr-B: hello"]).

(** a source that only holds a peer-connected line *)
Definition A_log_peer_only : LogFile :=
  mkLogFile "A.log" None (Lines [ln "Connected to peer: addr-B"]).

(** a node that announces two addresses, one after the other *)
Definition N_log : LogFile :=
  mkLogFile "N.log" None
    (Lines [ln "Node initialized with overlay address: addr-1";
           ln "Node initialized with overlay address: addr-2"]).

(** two nodes that announce the same address, and a third that connects
    and sends to it *)
Definition C_log_same_address : LogFile :=
  mkLogFile "C.log" None
    (Lines [ln "Node initialized with overlay address: addr-B"]).

Definition A_log_to_shared : LogFile :=
  mkLogFile "A.log" None
    (Lines [ln "Connected to peer: addr-B";
           ln "Sending msg to addr-B: hi"]).

(** the message count of a connection, when it exists *)
Definition message_count (st : Store) (src dst : string) : option nat :=
  Connection.messages <$> connections st !! (src, dst).

End Scenario.

Import Scenario.

(** the store after one pass, and after two passes, over [B.log] and the
    [A.log] that connects before it sends *)
Definition connected_listing : list LogFile := [B_log None; A_log_connected None].

Definition after_one_pass : Store :=
  default initial (parse_logs clock0 no_date connected_listing initial).

Definition after_two_passes : Store :=
  default initial (parse_logs clock0 no_date connected_listing after_one_pass).

(** the store in which nodes B and C both have the address addr-B *)
Definition shared_address : Store :=
  default initial (parse_logs clock0 no_date [B_log None; C_log_same_address] initial).

(** the listing in which [A.log] only holds the peer-connected line and is
    read before [B.log], and the store after one pass over it *)
Definition warm_up_listing : list LogFile := [A_log_peer_only; B_log None].

Definition after_warm_up : Store :=
  default initial (parse_logs clock0 no_date warm_up_listing initial).



(** ** Observations on a pass *)

(** the entries of a listing that [parse_logs] does not skip *)
Definition is_log (f : LogFile) : Prop := Str.endswith ".log" (filename f) = true.

(** the node ids of the log files of a listing, in the order of the listing *)
Definition log_ids (listing : list LogFile) : list string :=
  (λ f, parse_node_id_from_filename (filename f)) <$> filter is_log listing.

Definition last_seen_of (st : Store) (id : string) : Q :=
  from_option Node.last_seen 0%Q (lookup_node id (nodes st)).

(** the modification time that the last log file of node [id] in the
    listing has, among those that exist *)
Fixpoint latest_mtime (id : string) (listing : list LogFile) : option Q :=
  match listing with
  | [] => None
  | f :: listing' =>
      match latest_mtime id listing' with
      | Some t => Some t
      | None =>
          if decide (is_log f ∧ parse_node_id_from_filename (filename f) = id)
          then mtime f else None
      end
  end.

(** the status that [update_status] sets for a gap [g = now - last_seen] *)
Definition classify (g : Q) : Status :=
  if Qlt_le_dec 30 g then Offline
  else if Qlt_le_dec 10 g then Inactive
  else Active.

(** the record of a node says who it is *)
Definition record_ok (id : string) (n : Node.t) : Prop :=
  Node.node_id n = id ∧ Node.federation n = parse_federation_from_node_id id.

(** ** What connections and message records refer to *)

(** Every connection is stored under its own end points, both end points
    are nodes of the store, and it has counted no more messages than its
    source has sent; the end points of every message record are nodes of
    the store; no id is twice in the [nodes] dict. *)
Definition linked_ok (st : Store) : Prop :=
  (∀ s d c, connections st !! (s, d) = Some c →
     Connection.source c = s ∧ Connection.dest c = d
     ∧ known st s ∧ known st d
     ∧ Connection.messages c ≤ sent_of st s)
  ∧ (∀ m, m ∈ messages st → known st (Message.source m) ∧ known st (Message.dest m))
  ∧ NoDup (nodes st).*1.

(** ** What a log adds to the sets of a node *)

(** the address a line adds to the peer set (tunnel set) of its node *)
Definition peer_of_event (ev : Event) : gset string :=
  match ev with PeerConnected a => {[a]} | _ => ∅ end.
Definition tunnel_of_event (ev : Event) : gset string :=
  match ev with TunnelCreated a _ => {[a]} | _ => ∅ end.

(** a set-valued field [p] of the record of node [id], empty for an id the
    store lacks *)
Definition set_of (p : Node.t → gset string) (st : Store) (id : string) : gset string :=
  from_option p ∅ (lookup_node id (nodes st)).

(** the addresses that the lines of the log files of node [id] add *)
Definition gathered (of_event : Event → gset string) (id : string)
    (listing : list LogFile) : gset string :=
  ⋃ ((λ f, if decide (is_log f ∧ parse_node_id_from_filename (filename f) = id)
           then ⋃ ((λ line, of_event (parse_line line)) <$> default [] (content f))
           else ∅) <$> listing).

(** ** Lines and literals *)

(** the text up to the end of the line: the longest prefix without a newline *)
Fixpoint take_line (s : string) : string :=
  match s with
  | EmptyString => EmptyString
  | String c s' => if dot c then String c (take_line s') else EmptyString
  end.

(** the text has no newline *)
Fixpoint one_line (s : string) : bool :=
  match s with
  | EmptyString => true
  | String c s' => dot c && one_line s'
  end.

(** the text is where a line ends: nothing follows, or a newline does *)
Definition ends_line (post : string) : bool :=
  match post with
  | EmptyString => true
  | String c _ => negb (dot c)
  end.

(** what follows the first occurrence of [l] in [s]: [s.partition(l)[2]]
    when [l] occurs *)
Fixpoint after_first (l s : string) : option string :=
  match Str.strip_prefix l s with
  | Some rest => Some rest
  | None =>
      match s with
      | String _ s' => after_first l s'
      | EmptyString => None
      end
  end.

Fixpoint char_in (c : ascii) (s : string) : bool :=
  match s with
  | EmptyString => false
  | String b s' => Ascii.eqb c b || char_in c s'
  end.

(** the first character of the literal occurs nowhere else in it, so two
    occurrences of the literal never overlap *)
Definition unbordered (l : string) : bool :=
  match l with
  | EmptyString => false
  | String c l' => negb (char_in c l')
  end.

(** the literal a pattern starts with *)
Definition INIT := "Node initialized with overlay address: ".
Definition PEER := "Connected to peer: ".
Definition TUNNEL := "Created tunnel to ".
Definition SENDING := "Sending ".
Definition RECEIVED := "Received message from ".

(** the captured fields of an event *)
Definition fields (ev : Event) : list string :=
  match ev with
  | NodeInitialized a => [a]
  | PeerConnected a => [a]
  | TunnelCreated a ty => [a; ty]
  | MessageSent a c => [a; c]
  | MessageReceived a c => [a; c]
  | Unmatched => []
  end.

(** the text consists of dots only *)
Fixpoint all_dots (s : string) : bool :=
  match s with
  | EmptyString => true
  | String c s' => Ascii.eqb c "."%char && all_dots s'
  end.

(** ** Rendering: the pure parts of [draw_network_status] *)

Module Draw.

(** The number of the colour pair for the federation of a node.  [None]
    stands for the [TypeError] that [in] raises on a federation that is
    [None], which the comparison before it does not guard. *)
Definition fed_color (federation : option string) : option nat :=
  match federation with
  | None => None
  | Some f =>
      Some (if String.eqb f "federation-a" || Str.contains "federation-a+" f then 4
            else if String.eqb f "federation-b" || Str.contains "federation-b+" f then 5
            else if String.eqb f "federation-c" || Str.contains "federation-c+" f then 6
            else 7)
  end.

(** [s[:k]] for an integer [k], in characters: a negative [k] counts from
    the end *)
Definition slice_to (k : Z) (s : string) : string :=
  let n := Z.of_nat (Str.len s) in
  let stop := if (k <? 0)%Z then Z.max 0 (n + k) else Z.min k n in
  Str.take_chars (Z.to_nat stop) s.

(** the content of a message as it is written in a window [width] wide *)
Definition shown_content (width : Z) (content : string) : string :=
  if (width - 30 <? Z.of_nat (Str.len content))%Z
  then slice_to (width - 33) content +:+ "..."
  else content.

(** the test under which [draw_network_status] lists a connection as
    active, [now] being what [time.time()] returns *)
Definition is_active (now : Q) (c : Connection.t) : bool :=
  if Qlt_le_dec (now - 60) (Connection.last_message c) then true else false.

End Draw.

(** ** The scenario simulator: its registry of nodes *)

Module Sim.

Definition BASE_PORT : Z := 9000.

Record TestnetNode := mkTestnetNode {
  node_id : string;
  federation : option string;
  port : Z;
  address : option string;
  process : option nat;
  log_file : option string
}.

(** [TestnetNode.__init__]; [rand] is what [random.randint(1000, 9999)]
    returns when the port is not given *)
Definition new_node (node_id : string) (federation : option string)
    (port : option Z) (rand : Z) : TestnetNode :=
  mkTestnetNode node_id federation
    (match port with
     | Some p => if (p =? 0)%Z then (BASE_PORT + rand)%Z else p
     | None => (BASE_PORT + rand)%Z
     end)
    None None None.

(** [TestnetSimulator]: the two dicts *)
Record Simulator := mkSimulator {
  nodes : gmap string TestnetNode;
  federations : gmap string (list string)
}.

Definition empty : Simulator := mkSimulator ∅ ∅.

(** the truth value of [federation] in [if federation:] *)
Definition named (federation : option string) : option string :=
  match federation with
  | Some f => if String.eqb f EmptyString then None else Some f
  | None => None
  end.

(** Create a new node with the given ID and federation. *)
Definition create_node (node_id : string) (federation : option string) (rand : Z)
    (sim : Simulator) : Simulator :=
  let node := new_node node_id federation None rand in
  mkSimulator
    (<[node_id := node]> (nodes sim))
    (match named federation with
     | Some f => <[f := default [] (federations sim !! f) ++ [node_id]]> (federations sim)
     | None => federations sim
     end).

(** Get all nodes in the specified federation; [None] stands for the
    [KeyError] of [self.nodes[node_id]]. *)
Definition get_federation_nodes (federation : string) (sim : Simulator) :
    option (list TestnetNode) :=
  match federations sim !! federation with
  | None => Some []
  | Some ids => mapM (λ node_id, nodes sim !! node_id) ids
  end.

(** Get a node's overlay address. *)
Definition get_node_address (node_id : string) (sim : Simulator) : option string :=
  match nodes sim !! node_id with
  | None => None
  | Some node => address node
  end.

(** the address that [TestnetNode.start] reads from the content of the
    log file, when the node has announced one *)
Definition initialized_address (log_content : string) : option string :=
  group 1 <$> search NODE_INITIALIZED_RE log_content.

(** a simulator after a sequence of [create_node] calls *)
Definition after_calls (calls : list (string * option string * Z)) : Simulator :=
  foldl (λ sim call, create_node call.1.1 call.1.2 call.2 sim) empty calls.

(** the ids given to [create_node] with federation [f], in call order *)
Definition created_in (f : string) (calls : list (string * option string * Z)) :
    list string :=
  omap (λ call, if decide (named call.1.2 = Some f) then Some call.1.1 else None) calls.

End Sim.

(** the addresses that the node-initialized lines of a log announce, in
    their order *)
Definition announced (lines : list string) : list string :=
  omap (λ line, match parse_line line with
                | NodeInitialized a => Some a
                | _ => None
                end) lines.

(** the content of a file that is read as [lines] *)
Definition content_of (lines : list string) : string :=
  foldr String.append EmptyString lines.

(** a line as the iteration over a file yields it: one line of text and its
    newline *)
Definition terminated (line : string) : Prop :=
  ∃ body, one_line body = true ∧ line = body +:+ String Re.newline EmptyString.

(** a connection that has counted no message has no time of a last message *)
Definition unused_ok (cs : gmap (string * string) Connection.t) : Prop :=
  ∀ k c, cs !! k = Some c → Connection.messages c = 0 → Connection.last_message c = 0%Q.

(** ** Further concrete runs *)

(** the listing of the scenario with modification times, and the store
    after one pass over it *)
Definition timed_listing : list LogFile := [B_log (Some 5%Q); A_log_connected (Some 7%Q)].

Definition after_timed_pass : Store :=
  default initial (parse_logs clock0 no_date timed_listing initial).

(** the store after a second pass over [warm_up_listing]: the connection
    (A, B) exists and has counted no message *)
Definition after_second_warm_up : Store :=
  default initial (parse_logs clock0 no_date warm_up_listing after_warm_up).

(** the store after [A.log] has been read once more *)
Definition after_A_again : Store :=
  default initial (process_file clock0 no_date (A_log_connected None) after_one_pass).

(** the records of node A and of the connection (A, B) in a store *)
Definition node_A (st : Store) : Node.t :=
  default (Node.init "A" None) (lookup_node "A" (nodes st)).

Definition connection_A_B (st : Store) : Connection.t :=
  default (Connection.init "A" "B") (connections st !! ("A", "B")).

(** ten times the character U+4E2D, three bytes each *)
Definition cjk_content : string :=
  let c := String "228" (String "184" (String "173" EmptyString)) in
  c +:+ c +:+ c +:+ c +:+ c +:+ c +:+ c +:+ c +:+ c +:+ c.

(** the character U+2003, an em space *)
Definition em_space : string := String "226" (String "128" (String "131" EmptyString)).

(** a [strptime] that accepts one date *)
Definition new_year : string → option datetime :=
  λ s, if String.eqb s "2024-01-01"
       then Some {| year := 2024; month := 1; day := 1 |} else None.

(** * Properties *)

Section Properties.

Variable time_time : nat → Q.
Variable strptime : string → option datetime.

(** ** The [nodes] dict: lookups after updates *)

Lemma lookup_alter_node f id id' ns :
  lookup_node id' (alter_node f id ns)
  = if decide (id = id') then f <$> lookup_node id' ns else lookup_node id' ns.
Proof.
  induction ns as [|[k n] ns IH]; simpl.
  - by case_decide.
  - destruct (decide (k = id)) as [->|Hk]; simpl.
    + repeat case_decide; simplify_eq; done.
    + rewrite IH. repeat case_decide; simplify_eq; done.
Qed.

Lemma lookup_alter_node_eq f id ns :
  lookup_node id (alter_node f id ns) = f <$> lookup_node id ns.
Proof. by rewrite lookup_alter_node, decide_True. Qed.

Lemma lookup_alter_node_ne f id id' ns :
  id ≠ id' → lookup_node id' (alter_node f id ns) = lookup_node id' ns.
Proof. intros. by rewrite lookup_alter_node, decide_False. Qed.

Lemma alter_node_keys f id ns : (alter_node f id ns).*1 = ns.*1.
Proof.
  induction ns as [|[k n] ns IH]; csimpl; [done|].
  case_decide; csimpl; by rewrite ?IH.
Qed.

Lemma alter_node_length f id ns : length (alter_node f id ns) = length ns.
Proof. by rewrite <- (length_fmap fst), alter_node_keys, length_fmap. Qed.

(** An update that keeps addresses keeps who owns which address. *)
Lemma owners_alter_node f id a ns :
  (∀ n, Node.address (f n) = Node.address n) →
  owners a (alter_node f id ns) = owners a ns.
Proof.
  intros Hf. unfold owners.
  induction ns as [|[k n] ns IH]; simpl; [done|].
  destruct (decide (k = id)) as [->|Hk].
  - rewrite !filter_cons; csimpl. rewrite Hf. by case_decide.
  - rewrite !filter_cons; csimpl. case_decide; csimpl; by rewrite IH.
Qed.

Lemma elem_of_owners a o ns :
  o ∈ owners a ns ↔ ∃ n, (o, n) ∈ ns ∧ Node.address n = Some a.
Proof.
  unfold owners. rewrite list_elem_of_fmap. split.
  - intros [[k n] [-> [Ha Hin]%list_elem_of_filter]]. by exists n.
  - intros [n [Hin Ha]]. exists (o, n). split; [done|].
    by apply list_elem_of_filter.
Qed.



Lemma lookup_ensure_node id n id' ns :
  lookup_node id' (ensure_node id n ns)
  = match lookup_node id' ns with
    | Some m => Some m
    | None => if decide (id = id') then Some n else None
    end.
Proof.
  unfold ensure_node. destruct (lookup_node id ns) as [m|] eqn:Hid.
  - destruct (lookup_node id' ns) eqn:Hid'; [done|].
    case_decide; [|done]. congruence.
  - clear Hid. induction ns as [|[k m] ns IH]; simpl; [done|].
    destruct (decide (k = id')); [done|apply IH].
Qed.

Lemma ensure_node_known id n ns : is_Some (lookup_node id (ensure_node id n ns)).
Proof.
  rewrite lookup_ensure_node. destruct (lookup_node id ns); [by eexists|].
  rewrite decide_True by done. by eexists.
Qed.

(** ** Folds that touch one field *)

Lemma foldl_connections (F : string → gmap (string * string) Connection.t
                             → gmap (string * string) Connection.t) l st :
  foldl (λ s o, set_connections (F o (connections s)) s) st l
  = set_connections (foldl (λ cs o, F o cs) (connections st) l) st.
Proof.
  revert st. induction l as [|o l IH]; intros st; simpl.
  - by destruct st.
  - by rewrite IH.
Qed.

Lemma dom_ensure_connection src dst cs :
  dom (ensure_connection src dst cs) = {[(src, dst)]} ∪ dom cs.
Proof.
  unfold ensure_connection. destruct (cs !! (src, dst)) eqn:H.
  - apply (elem_of_dom_2 (D := gset (string * string))) in H. set_solver.
  - by rewrite dom_insert_L.
Qed.

Lemma dom_set_tunnel src dst ty cs :
  dom (set_tunnel src dst ty cs) = {[(src, dst)]} ∪ dom cs.
Proof. unfold set_tunnel. destruct (cs !! (src, dst)); by rewrite dom_insert_L. Qed.

Lemma dom_foldl_link (F : string → gmap (string * string) Connection.t
                          → gmap (string * string) Connection.t) src l cs :
  (∀ o cs', dom (F o cs') = {[(src, o)]} ∪ dom cs') →
  dom (foldl (λ cs' o, F o cs') cs l) = list_to_set ((λ o, (src, o)) <$> l) ∪ dom cs.
Proof.
  intros HF. revert cs. induction l as [|o l IH]; intros cs; simpl.
  - set_solver.
  - rewrite IH, HF. set_solver.
Qed.

(** ** The bounded message sequence *)

Lemma push_message_below {A} (m : A) (l : list A) :
  length l < 100 → push_message m l = l ++ [m].
Proof.
  intros Hl. unfold push_message.
  destruct (Nat.ltb_spec 100 (length (l ++ [m]))) as [H|H]; [|done].
  rewrite length_app in H. simpl in H. lia.
Qed.

Lemma push_message_full {A} (m : A) (l : list A) :
  100 ≤ length l → push_message m l = tail l ++ [m].
Proof.
  intros Hl. unfold push_message.
  destruct (Nat.ltb_spec 100 (length (l ++ [m]))) as [H|H].
  - destruct l; simpl in *; [lia|done].
  - rewrite length_app in H. simpl in H. lia.
Qed.

Lemma push_message_length {A} (m : A) (l : list A) :
  length l ≤ 100 → length (push_message m l) ≤ 100.
Proof.
  intros Hl. destruct (decide (length l < 100)) as [Hlt|Hge].
  - rewrite push_message_below by done. rewrite length_app. simpl. lia.
  - rewrite push_message_full by lia. rewrite length_app.
    destruct l; simpl in *; lia.
Qed.

Lemma fmap_push_message {A B} (f : A → B) (m : A) (l : list A) :
  f <$> push_message m l = push_message (f m) (f <$> l).
Proof.
  unfold push_message. rewrite !length_app, !length_fmap. simpl.
  destruct (100 <? length l + 1).
  - destruct l; csimpl; [done|]. by rewrite fmap_app.
  - by rewrite fmap_app.
Qed.

(** ** What each handler does to each field *)

Lemma alter_node_same id ns : alter_node (λ n, n) id ns = ns.
Proof.
  induction ns as [|[k n] ns IH]; simpl; [done|].
  destruct (decide (k = id)); by rewrite ?IH.
Qed.

Lemma deliver_nodes node_id c ts st o :
  nodes (deliver time_time node_id c ts st o) = nodes st.
Proof.
  unfold deliver.
  destruct (connections st !! (node_id, o)); by destruct ts.
Qed.

Lemma foldl_deliver_nodes node_id c ts l st :
  nodes (foldl (deliver time_time node_id c ts) st l) = nodes st.
Proof.
  revert st. induction l as [|o l IH]; intros st; simpl; [done|].
  by rewrite IH, deliver_nodes.
Qed.

Lemma on_peer_connected_nodes node_id a st :
  nodes (on_peer_connected node_id a st)
  = alter_node (Node.add_peer a) node_id (nodes st).
Proof. unfold on_peer_connected. by rewrite foldl_connections. Qed.

Lemma on_peer_connected_connections node_id a st :
  connections (on_peer_connected node_id a st)
  = foldl (λ cs o, ensure_connection node_id o cs) (connections st)
          (owners a (nodes st)).
Proof.
  unfold on_peer_connected.
  rewrite (foldl_connections (ensure_connection node_id)). simpl.
  by rewrite owners_alter_node.
Qed.

Lemma on_peer_connected_messages node_id a st :
  messages (on_peer_connected node_id a st) = messages st
  ∧ clock (on_peer_connected node_id a st) = clock st.
Proof. unfold on_peer_connected. by rewrite foldl_connections. Qed.

Lemma on_tunnel_created_nodes node_id a ty st :
  nodes (on_tunnel_created node_id a ty st)
  = alter_node (Node.add_tunnel a) node_id (nodes st).
Proof.
  unfold on_tunnel_created.
  by rewrite (foldl_connections (λ o, set_tunnel node_id o ty)).
Qed.

Lemma on_tunnel_created_connections node_id a ty st :
  connections (on_tunnel_created node_id a ty st)
  = foldl (λ cs o, set_tunnel node_id o ty cs) (connections st)
          (owners a (nodes st)).
Proof.
  unfold on_tunnel_created.
  rewrite (foldl_connections (λ o, set_tunnel node_id o ty)). simpl.
  by rewrite owners_alter_node.
Qed.

Lemma on_tunnel_created_messages node_id a ty st :
  messages (on_tunnel_created node_id a ty st) = messages st
  ∧ clock (on_tunnel_created node_id a ty st) = clock st.
Proof.
  unfold on_tunnel_created.
  by rewrite (foldl_connections (λ o, set_tunnel node_id o ty)).
Qed.

Lemma process_line_nodes node_id st line :
  nodes (process_line time_time strptime node_id st line)
  = alter_node (node_effect (parse_line line)) node_id (nodes st).
Proof.
  unfold process_line. destruct (parse_line line); simpl.
  - done.
  - apply on_peer_connected_nodes.
  - apply on_tunnel_created_nodes.
  - unfold on_message_sent. by rewrite foldl_deliver_nodes.
  - done.
  - by rewrite alter_node_same.
Qed.

Lemma foldl_process_line_keys node_id lines st :
  (nodes (foldl (process_line time_time strptime node_id) st lines)).*1 = (nodes st).*1.
Proof.
  revert st. induction lines as [|l lines IH]; intros st; simpl; [done|].
  by rewrite IH, process_line_nodes, alter_node_keys.
Qed.

(** *** Messages *)

Lemma deliver_triples node_id c ts st o :
  Message.triple <$> messages (deliver time_time node_id c ts st o)
  = push_message (node_id, o, c) (Message.triple <$> messages st).
Proof.
  unfold deliver.
  destruct (connections st !! (node_id, o)), ts; simpl;
    by rewrite fmap_push_message.
Qed.

Lemma deliver_messages_length node_id c ts st o :
  length (messages st) ≤ 100 → length (messages (deliver time_time node_id c ts st o)) ≤ 100.
Proof.
  intros H. rewrite <- (length_fmap Message.triple), deliver_triples.
  apply push_message_length. by rewrite length_fmap.
Qed.

Lemma foldl_deliver_triples node_id c ts l st :
  Message.triple <$> messages (foldl (deliver time_time node_id c ts) st l)
  = foldl (λ ms o, push_message (node_id, o, c) ms) (Message.triple <$> messages st) l.
Proof.
  revert st. induction l as [|o l IH]; intros st; simpl; [done|].
  by rewrite IH, deliver_triples.
Qed.

Lemma foldl_deliver_messages_length node_id c ts l st :
  length (messages st) ≤ 100 →
  length (messages (foldl (deliver time_time node_id c ts) st l)) ≤ 100.
Proof.
  revert st. induction l as [|o l IH]; intros st H; simpl; [done|].
  by apply IH, deliver_messages_length.
Qed.

Lemma process_line_messages_length node_id st line :
  length (messages st) ≤ 100 →
  length (messages (process_line time_time strptime node_id st line)) ≤ 100.
Proof.
  intros H. unfold process_line. destruct (parse_line line); try done.
  - by rewrite (proj1 (on_peer_connected_messages _ _ _)).
  - by rewrite (proj1 (on_tunnel_created_messages _ _ _ _)).
  - unfold on_message_sent. by apply foldl_deliver_messages_length.
Qed.

Lemma register_messages f st :
  messages (register f st) = messages st
  ∧ connections (register f st) = connections st.
Proof. unfold register. by destruct (mtime f). Qed.

Lemma process_file_messages_length f st st' :
  length (messages st) ≤ 100 → process_file time_time strptime f st = Some st' →
  length (messages st') ≤ 100.
Proof.
  intros H. unfold process_file.
  destruct (Str.endswith ".log" (filename f)); [|by intros [= <-]].
  destruct (content f) as [lines|]; [|done]. intros [= <-].
  assert (length (messages (register f st)) ≤ 100) as H'
    by by rewrite (proj1 (register_messages _ _)).
  revert H'. generalize (register f st).
  induction lines as [|l lines IH]; intros s Hs; simpl; [done|].
  by apply IH, process_line_messages_length.
Qed.

Lemma process_files_messages_length listing st st' :
  length (messages st) ≤ 100 → process_files time_time strptime listing st = Some st' →
  length (messages st') ≤ 100.
Proof.
  revert st. induction listing as [|f listing IH]; intros st H; simpl.
  - by intros [= <-].
  - destruct (process_file time_time strptime f st) as [st1|] eqn:Hf; [|done].
    eauto using process_file_messages_length.
Qed.

Lemma parse_logs_messages_length listing st st' :
  length (messages st) ≤ 100 → parse_logs time_time strptime listing st = Some st' →
  length (messages st') ≤ 100.
Proof.
  intros H. unfold parse_logs.
  destruct (process_files time_time strptime listing st) as [st1|] eqn:Hf; [|done].
  intros [= <-]. simpl. eauto using process_files_messages_length.
Qed.

(** ** Known nodes stay known *)

Lemma known_alter_node f id id' ns :
  is_Some (lookup_node id' (alter_node f id ns)) ↔ is_Some (lookup_node id' ns).
Proof.
  rewrite lookup_alter_node. destruct (decide (id = id')); [|done].
  by rewrite fmap_is_Some.
Qed.

Lemma known_process_line node_id st line id :
  known (process_line time_time strptime node_id st line) id ↔ known st id.
Proof. unfold known. rewrite process_line_nodes. apply known_alter_node. Qed.

Lemma known_foldl_process_line node_id lines st id :
  known (foldl (process_line time_time strptime node_id) st lines) id ↔ known st id.
Proof.
  revert st. induction lines as [|l lines IH]; intros st; simpl; [done|].
  by rewrite IH, known_process_line.
Qed.

Lemma register_nodes f st :
  nodes (register f st)
  = let node_id := parse_node_id_from_filename (filename f) in
    let ns := ensure_node node_id
                (Node.init node_id (parse_federation_from_node_id node_id)) (nodes st) in
    match mtime f with
    | Some t => alter_node (Node.set_last_seen t) node_id ns
    | None => ns
    end.
Proof. unfold register. by destruct (mtime f). Qed.

Lemma register_known f st :
  known (register f st) (parse_node_id_from_filename (filename f)).
Proof.
  unfold known. rewrite register_nodes. simpl.
  destruct (mtime f); rewrite ?known_alter_node; apply ensure_node_known.
Qed.

Lemma register_known_mono f st id : known st id → known (register f st) id.
Proof.
  unfold known. rewrite register_nodes. simpl. intros [n Hn].
  destruct (mtime f); rewrite ?known_alter_node;
    rewrite lookup_ensure_node, Hn; by eexists.
Qed.

Lemma lookup_update_all id ns now :
  ∃ t, lookup_node id (update_all time_time ns now) = Node.update_status t <$> lookup_node id ns.
Proof.
  revert now. induction ns as [|[k n] ns IH]; intros now; simpl.
  - by exists 0%Q.
  - destruct (decide (k = id)); [by eexists|]. apply IH.
Qed.

Lemma update_status_fields now n :
  Node.address (Node.update_status now n) = Node.address n
  ∧ Node.messages_sent (Node.update_status now n) = Node.messages_sent n
  ∧ Node.messages_received (Node.update_status now n) = Node.messages_received n
  ∧ Node.peers (Node.update_status now n) = Node.peers n
  ∧ Node.tunnels (Node.update_status now n) = Node.tunnels n.
Proof. unfold Node.update_status. by repeat destruct (Qlt_le_dec _ _). Qed.

(** ** Counters

    A counter is a field [p] of the node record to which an event [ev]
    adds [w ev]; a line adds its weight to the counter of the node whose
    log it is in, every time it is processed. *)

Section Counter.

Variable p : Node.t → nat.
Variable w : Event → nat.
Hypothesis effect : ∀ ev n, p (node_effect ev n) = p n + w ev.
Hypothesis fresh : ∀ id fed, p (Node.init id fed) = 0.
Hypothesis seen : ∀ t n, p (Node.set_last_seen t n) = p n.
Hypothesis status : ∀ t n, p (Node.update_status t n) = p n.

Lemma counter_process_line node_id st line id :
  known st node_id →
  counter p (process_line time_time strptime node_id st line) id
  = counter p st id + (if decide (node_id = id) then w (parse_line line) else 0).
Proof.
  intros [n Hn]. unfold counter.
  rewrite process_line_nodes, lookup_alter_node.
  destruct (decide (node_id = id)) as [<-|]; [|lia].
  rewrite Hn. simpl. apply effect.
Qed.

Lemma counter_foldl_process_line node_id lines st id :
  known st node_id →
  counter p (foldl (process_line time_time strptime node_id) st lines) id
  = counter p st id + (if decide (node_id = id) then weight w lines else 0).
Proof.
  revert st. induction lines as [|l lines IH]; intros st Hk; simpl.
  - destruct (decide (node_id = id)); lia.
  - rewrite IH by by apply known_process_line.
    rewrite counter_process_line by done.
    destruct (decide (node_id = id)); lia.
Qed.

Lemma counter_register f st id : counter p (register f st) id = counter p st id.
Proof.
  unfold counter. rewrite register_nodes. simpl.
  set (nid := parse_node_id_from_filename (filename f)).
  assert (from_option p 0
            (lookup_node id (ensure_node nid
               (Node.init nid (parse_federation_from_node_id nid)) (nodes st)))
          = from_option p 0 (lookup_node id (nodes st))) as He.
  { rewrite lookup_ensure_node. destruct (lookup_node id (nodes st)); [done|].
    destruct (decide (nid = id)); simpl; by rewrite ?fresh. }
  destruct (mtime f); [|done].
  rewrite lookup_alter_node. destruct (decide (nid = id)); [|done].
  rewrite <- He. destruct (lookup_node id _); simpl; by rewrite ?seen.
Qed.

Lemma counter_process_file f st st' id :
  process_file time_time strptime f st = Some st' →
  counter p st' id = counter p st id + file_weight w id f.
Proof.
  unfold process_file, file_weight.
  destruct (Str.endswith ".log" (filename f)); simpl;
    [|intros [= <-]; lia].
  destruct (content f) as [lines|]; [|done]. intros [= <-].
  rewrite counter_foldl_process_line by apply register_known.
  rewrite counter_register. simpl.
  destruct (decide (parse_node_id_from_filename (filename f) = id)).
  - by rewrite bool_decide_eq_true_2.
  - by rewrite bool_decide_eq_false_2.
Qed.

Lemma counter_process_files listing st st' id :
  process_files time_time strptime listing st = Some st' →
  counter p st' id = counter p st id + listing_weight w id listing.
Proof.
  revert st. induction listing as [|f listing IH]; intros st; simpl.
  - intros [= <-]. lia.
  - destruct (process_file time_time strptime f st) as [st1|] eqn:Hf; [|done]. intros H.
    rewrite (IH _ H), (counter_process_file _ _ _ _ Hf). lia.
Qed.

Lemma counter_update_statuses st id : counter p (update_statuses time_time st) id = counter p st id.
Proof.
  unfold counter, update_statuses. simpl.
  destruct (lookup_update_all id (nodes st) (clock st)) as [t ->].
  destruct (lookup_node id (nodes st)); simpl; by rewrite ?status.
Qed.

Lemma counter_parse_logs listing st st' id :
  parse_logs time_time strptime listing st = Some st' →
  counter p st' id = counter p st id + listing_weight w id listing.
Proof.
  unfold parse_logs.
  destruct (process_files time_time strptime listing st) as [st1|] eqn:Hf; [|done].
  intros [= <-]. rewrite counter_update_statuses.
  eauto using counter_process_files.
Qed.

End Counter.

(** ** Connections are never deleted, and their counts never decrease *)

Lemma conn_le_refl cs : conn_le cs cs.
Proof. intros k c H. eauto. Qed.

Lemma conn_le_trans cs1 cs2 cs3 : conn_le cs1 cs2 → conn_le cs2 cs3 → conn_le cs1 cs3.
Proof.
  intros H12 H23 k c H. destruct (H12 k c H) as (c2 & H2 & Hle).
  destruct (H23 k c2 H2) as (c3 & H3 & Hle'). exists c3. split; [done|lia].
Qed.

Lemma conn_le_insert k c c' cs :
  cs !! k = Some c → Connection.messages c ≤ Connection.messages c' →
  conn_le cs (<[k := c']> cs).
Proof.
  intros Hk Hle k' d Hd. destruct (decide (k = k')) as [<-|Hne].
  - rewrite lookup_insert_eq. exists c'. split; [done|]. congruence.
  - rewrite lookup_insert_ne by done. eauto.
Qed.

Lemma conn_le_insert_fresh k c' cs : cs !! k = None → conn_le cs (<[k := c']> cs).
Proof.
  intros Hk k' d Hd. destruct (decide (k = k')) as [<-|Hne]; [congruence|].
  rewrite lookup_insert_ne by done. eauto.
Qed.

Lemma conn_le_ensure_connection src dst cs : conn_le cs (ensure_connection src dst cs).
Proof.
  unfold ensure_connection. destruct (cs !! (src, dst)) eqn:H.
  - apply conn_le_refl.
  - by apply conn_le_insert_fresh.
Qed.

Lemma conn_le_set_tunnel src dst ty cs : conn_le cs (set_tunnel src dst ty cs).
Proof.
  unfold set_tunnel. destruct (cs !! (src, dst)) eqn:H.
  - by eapply conn_le_insert.
  - by apply conn_le_insert_fresh.
Qed.

Lemma conn_le_foldl (F : string → gmap (string * string) Connection.t
                         → gmap (string * string) Connection.t) l cs :
  (∀ o cs', conn_le cs' (F o cs')) → conn_le cs (foldl (λ cs' o, F o cs') cs l).
Proof.
  intros HF. revert cs. induction l as [|o l IH]; intros cs; simpl.
  - apply conn_le_refl.
  - eapply conn_le_trans; [apply HF|apply IH].
Qed.

Lemma conn_le_deliver node_id c ts st o :
  conn_le (connections st) (connections (deliver time_time node_id c ts st o)).
Proof.
  unfold deliver. destruct (connections st !! (node_id, o)) eqn:H, ts; simpl;
    try apply conn_le_refl; (eapply conn_le_insert; [done|simpl; lia]).
Qed.

Lemma conn_le_foldl_deliver node_id c ts l st :
  conn_le (connections st) (connections (foldl (deliver time_time node_id c ts) st l)).
Proof.
  revert st. induction l as [|o l IH]; intros st; simpl.
  - apply conn_le_refl.
  - eapply conn_le_trans; [apply conn_le_deliver|apply IH].
Qed.

Lemma conn_le_process_line node_id st line :
  conn_le (connections st) (connections (process_line time_time strptime node_id st line)).
Proof.
  unfold process_line. destruct (parse_line line); try apply conn_le_refl.
  - rewrite on_peer_connected_connections.
    apply (conn_le_foldl (ensure_connection node_id)), conn_le_ensure_connection.
  - rewrite on_tunnel_created_connections.
    apply (conn_le_foldl (λ o, set_tunnel node_id o tunnel_type)).
    intros. apply conn_le_set_tunnel.
  - unfold on_message_sent.
    apply (conn_le_foldl_deliver _ _ _ _ (set_nodes _ st)).
Qed.

Lemma conn_le_foldl_process_line node_id lines st :
  conn_le (connections st) (connections (foldl (process_line time_time strptime node_id) st lines)).
Proof.
  revert st. induction lines as [|l lines IH]; intros st; simpl.
  - apply conn_le_refl.
  - eapply conn_le_trans; [apply conn_le_process_line|apply IH].
Qed.

Lemma conn_le_process_file f st st' :
  process_file time_time strptime f st = Some st' → conn_le (connections st) (connections st').
Proof.
  unfold process_file.
  destruct (Str.endswith ".log" (filename f)); [|intros [= <-]; apply conn_le_refl].
  destruct (content f) as [lines|]; [|done]. intros [= <-].
  rewrite <- (proj2 (register_messages f st)).
  apply conn_le_foldl_process_line.
Qed.

Lemma conn_le_process_files listing st st' :
  process_files time_time strptime listing st = Some st' →
  conn_le (connections st) (connections st').
Proof.
  revert st. induction listing as [|f listing IH]; intros st; simpl.
  - intros [= <-]. apply conn_le_refl.
  - destruct (process_file time_time strptime f st) as [st1|] eqn:Hf; [|done]. intros H.
    eapply conn_le_trans; eauto using conn_le_process_file.
Qed.

Lemma conn_le_parse_logs listing st st' :
  parse_logs time_time strptime listing st = Some st' →
  conn_le (connections st) (connections st').
Proof.
  unfold parse_logs.
  destruct (process_files time_time strptime listing st) as [st1|] eqn:Hf; [|done].
  intros [= <-]. simpl. eauto using conn_le_process_files.
Qed.

(** ** Connections keep their end points *)














(** ** A pass returns when every log source can be opened and read *)

Lemma process_files_readable listing st :
  readable listing → is_Some (process_files time_time strptime listing st).
Proof.
  revert st. induction listing as [|f listing IH]; intros st Hr; simpl; [by eexists|].
  assert (is_Some (process_file time_time strptime f st)) as [st1 ->].
  { unfold process_file.
    destruct (Str.endswith ".log" (filename f)) eqn:He; [|by eexists].
    destruct (Hr f) as [lines ->]; [by left|done|by eexists]. }
  apply IH. intros g Hg. apply Hr. by right.
Qed.

Lemma parse_logs_readable listing st :
  readable listing → is_Some (parse_logs time_time strptime listing st).
Proof.
  intros Hr. unfold parse_logs.
  destruct (process_files_readable listing st Hr) as [st1 ->]. by eexists.
Qed.

(** ** Reachable stores *)

Lemma reachable_foldl_process_line node_id lines st :
  reachable time_time strptime st →
  reachable time_time strptime (foldl (process_line time_time strptime node_id) st lines).
Proof.
  revert st. induction lines as [|l lines IH]; intros st H; simpl; [done|].
  by apply IH, reachable_line.
Qed.

Lemma reachable_process_file f st st' :
  reachable time_time strptime st → process_file time_time strptime f st = Some st' →
  reachable time_time strptime st'.
Proof.
  intros H. unfold process_file.
  destruct (Str.endswith ".log" (filename f)); [|by intros [= <-]].
  destruct (content f) as [lines|]; [|done]. intros [= <-].
  by apply reachable_foldl_process_line, reachable_register.
Qed.

Lemma reachable_process_files listing st st' :
  reachable time_time strptime st → process_files time_time strptime listing st = Some st' →
  reachable time_time strptime st'.
Proof.
  revert st. induction listing as [|f listing IH]; intros st H; simpl.
  - by intros [= <-].
  - destruct (process_file time_time strptime f st) as [st1|] eqn:Hf; [|done].
    eauto using reachable_process_file.
Qed.

Lemma reachable_parse_logs listing st st' :
  reachable time_time strptime st → parse_logs time_time strptime listing st = Some st' →
  reachable time_time strptime st'.
Proof.
  intros H. unfold parse_logs.
  destruct (process_files time_time strptime listing st) as [st1|] eqn:Hf; [|done].
  intros [= <-]. eauto using reachable_statuses, reachable_process_files.
Qed.

Lemma reachable_run passes st st' :
  reachable time_time strptime st → run time_time strptime passes st = Some st' →
  reachable time_time strptime st'.
Proof.
  revert st. induction passes as [|listing passes IH]; intros st H; simpl.
  - by intros [= <-].
  - destruct (parse_logs time_time strptime listing st) as [st1|] eqn:Hp; [|done].
    eauto using reachable_parse_logs.
Qed.

Lemma reachable_messages_length st :
  reachable time_time strptime st → length (messages st) ≤ 100.
Proof.
  induction 1 as [|f st _ IH|node_id st line _ IH|st _ IH]; simpl.
  - lia.
  - by rewrite (proj1 (register_messages f st)).
  - by apply process_line_messages_length.
  - done.
Qed.

Lemma deliver_messages node_id c ts st o :
  ∃ t, messages (deliver time_time node_id c ts st o)
       = push_message (Message.mk node_id o c t) (messages st).
Proof.
  unfold deliver.
  destruct (connections st !! (node_id, o)), ts; simpl; by eexists.
Qed.

(** ** Properties of the specification *)

(** The named markers are tried in the order a, b, c, and the first one
    found in the identity decides; an identity with no marker and without
    [cross-federation] has no federation. *)
Lemma federation_marker_decides (node_id : string) :
  (Str.contains "federation-a" node_id = true →
   parse_federation_from_node_id node_id = Some "federation-a")
  ∧ (Str.contains "federation-a" node_id = false →
     Str.contains "federation-b" node_id = true →
     parse_federation_from_node_id node_id = Some "federation-b")
  ∧ (Str.contains "federation-a" node_id = false →
     Str.contains "federation-b" node_id = false →
     Str.contains "federation-c" node_id = true →
     parse_federation_from_node_id node_id = Some "federation-c")
  ∧ (Str.contains "federation-a" node_id = false →
     Str.contains "federation-b" node_id = false →
     Str.contains "federation-c" node_id = false →
     Str.contains "cross-federation" node_id = false →
     parse_federation_from_node_id node_id = None).
Proof.
  unfold parse_federation_from_node_id.
  repeat split; intros; repeat match goal with H : _ = _ |- _ => rewrite H; clear H end;
    reflexivity.
Qed.

(** C3 (federation classifier).  The markers are looked for as substrings,
    before the bridge convention is: the bridge identity
    [cross-federation-bridge-ab] contains [federation-b] (in
    [federation-bridge]), so it is classified as a member of federation-b
    and the branch that would return the composite label
    [federation-a+federation-b] is never reached for it; the shorter
    [cross-federation-ab] contains [federation-a].  The branch is reached
    when what follows [cross-federation-] starts with none of a, b, c. *)
Theorem C3_bridge_identity_is_shadowed :
  Str.contains "federation-b" "cross-federation-bridge-ab" = true
  ∧ parse_federation_from_node_id "cross-federation-bridge-ab" = Some "federation-b"
  ∧ parse_federation_from_node_id "cross-federation-bridge-bc" = Some "federation-b"
  ∧ parse_federation_from_node_id "cross-federation-bridge-ac" = Some "federation-b"
  ∧ parse_federation_from_node_id "cross-federation-ab" = Some "federation-a"
  ∧ parse_federation_from_node_id "cross-federation-x-ab"
    = Some "federation-a+federation-b".
Proof. repeat split; reflexivity. Qed.

(** C7 (status classifier).  With [g = now - last_seen], the status set by
    [update_status] is offline exactly when [g > 30], inactive exactly
    when [10 < g <= 30] and active exactly when [g <= 10]; a gap of 10 is
    active and a gap of 10.01 is inactive. *)
Theorem C7_status_thresholds (now : Q) (n : Node.t) :
  let g := (now - Node.last_seen n)%Q in
  let status := Node.status (Node.update_status now n) in
  (status = Offline ↔ (30 < g)%Q)
  ∧ (status = Inactive ↔ (10 < g)%Q ∧ (g <= 30)%Q)
  ∧ (status = Active ↔ (g <= 10)%Q)
  ∧ Node.status (Node.update_status (Node.last_seen n + 10) n) = Active
  ∧ Node.status (Node.update_status (Node.last_seen n + (1001 # 100)) n) = Inactive.
Proof.
  simpl. unfold Node.update_status.
  repeat split; repeat destruct (Qlt_le_dec _ _); simpl;
    try done; try (intros; exfalso; lra); try lra.
  all: intros [? ?]; exfalso; lra.
Qed.

(** C6 (bounded message sequence).  In every store the monitor can be in
    the message sequence holds at most 100 records; an insertion appends
    the new record at the end, and when the sequence already holds 100 it
    drops the oldest record and keeps the others in their order. *)
Theorem C6_message_sequence_bounded_fifo (st : Store)
    (node_id content : string) (ts : option datetime) (other_id : string) :
  reachable time_time strptime st →
  length (messages st) ≤ 100
  ∧ ∃ msg, Message.triple msg = (node_id, other_id, content)
      ∧ length (messages (deliver time_time node_id content ts st other_id)) ≤ 100
      ∧ (length (messages st) < 100 →
         messages (deliver time_time node_id content ts st other_id) = messages st ++ [msg])
      ∧ (length (messages st) = 100 →
         ∃ oldest rest, messages st = oldest :: rest
           ∧ messages (deliver time_time node_id content ts st other_id) = rest ++ [msg]).
Proof.
  intros Hr. pose proof (reachable_messages_length st Hr) as Hlen.
  split; [done|].
  destruct (deliver_messages node_id content ts st other_id) as [t Ht].
  exists (Message.mk node_id other_id content t). rewrite Ht.
  split; [done|]. split; [by apply push_message_length|]. split.
  - apply push_message_below.
  - intros H100. destruct (messages st) as [|oldest rest] eqn:Hm; [done|].
    exists oldest, rest. split; [done|].
    rewrite push_message_full by (simpl in *; lia). done.
Qed.

(** C1 (counters, as the code has them).  A pass over sources that can all
    be opened and read returns, and it re-reads every source from its
    first line:
    it adds to a node's [messages_sent] ([messages_received]) the number
    of message-sent (message-received) lines of the node's sources,
    whether or not an earlier pass has counted them, so a second pass over
    unchanged sources adds the same amount again; a connection's message
    count never decreases. *)
Theorem C1_every_pass_recounts (listing : list LogFile) (st : Store) :
  readable listing →
  ∃ st1 st2,
    parse_logs time_time strptime listing st = Some st1
    ∧ parse_logs time_time strptime listing st1 = Some st2
    ∧ (∀ id, sent_of st1 id = sent_of st id + listing_weight sent_weight id listing
             ∧ sent_of st2 id = sent_of st1 id + listing_weight sent_weight id listing)
    ∧ (∀ id, received_of st1 id
               = received_of st id + listing_weight received_weight id listing
             ∧ received_of st2 id
               = received_of st1 id + listing_weight received_weight id listing)
    ∧ conn_le (connections st) (connections st1)
    ∧ conn_le (connections st1) (connections st2).
Proof.
  intros Hread.
  destruct (parse_logs_readable listing st Hread) as [st1 H1].
  destruct (parse_logs_readable listing st1 Hread) as [st2 H2].
  exists st1, st2.
  assert (∀ ev n, Node.messages_sent (node_effect ev n)
                  = Node.messages_sent n + sent_weight ev) as Hs
    by (intros [] ?; simpl; lia).
  assert (∀ ev n, Node.messages_received (node_effect ev n)
                  = Node.messages_received n + received_weight ev) as Hr
    by (intros [] ?; simpl; lia).
  pose proof (λ t n, proj1 (proj2 (update_status_fields t n))) as Hus.
  pose proof (λ t n, proj1 (proj2 (proj2 (update_status_fields t n)))) as Hur.
  repeat split; eauto using conn_le_parse_logs.
  - by apply (counter_parse_logs Node.messages_sent sent_weight).
  - by apply (counter_parse_logs Node.messages_sent sent_weight).
  - by apply (counter_parse_logs Node.messages_received received_weight).
  - by apply (counter_parse_logs Node.messages_received received_weight).
Qed.

(** C4 (overlay address, as the code has it).  A node-initialized line
    overwrites the address of the node whose log it is in, whatever
    address was stored before: the last line processed wins.  Nothing
    else in the store changes: the record of the node keeps every other
    field, the [nodes] dict keeps its keys and their order, and the other
    records, the connections, the messages and the clock are as before. *)
Theorem C4_node_initialized_overwrites (node_id : string) (st : Store)
    (line addr : string) :
  known st node_id →
  parse_line line = NodeInitialized addr →
  let st' := process_line time_time strptime node_id st line in
  address_of st' node_id = Some addr
  ∧ (∃ n, lookup_node node_id (nodes st) = Some n
          ∧ lookup_node node_id (nodes st')
            = Some (Node.mk (Node.node_id n) (Node.federation n) (Some addr)
                      (Node.peers n) (Node.tunnels n)
                      (Node.messages_sent n) (Node.messages_received n)
                      (Node.last_seen n) (Node.status n)))
  ∧ (nodes st').*1 = (nodes st).*1
  ∧ (∀ id, id ≠ node_id → lookup_node id (nodes st') = lookup_node id (nodes st))
  ∧ connections st' = connections st
  ∧ messages st' = messages st
  ∧ clock st' = clock st.
Proof.
  intros [n Hn] Hline. simpl. unfold process_line, address_of. rewrite Hline.
  unfold on_node_initialized. simpl. repeat split.
  - by rewrite lookup_alter_node_eq, Hn.
  - exists n. split; [done|]. by rewrite lookup_alter_node_eq, Hn.
  - apply alter_node_keys.
  - intros id Hid. by rewrite lookup_alter_node_ne.
Qed.

(** ** Linking an event to the nodes that own its address *)

Lemma dom_deliver node_id c ts st o :
  dom (connections (deliver time_time node_id c ts st o)) = dom (connections st).
Proof.
  unfold deliver. destruct (connections st !! (node_id, o)) eqn:H, ts; simpl;
    try done; rewrite dom_insert_L;
    apply (elem_of_dom_2 (D := gset (string * string))) in H; set_solver.
Qed.

Lemma dom_foldl_deliver node_id c ts l st :
  dom (connections (foldl (deliver time_time node_id c ts) st l)) = dom (connections st).
Proof.
  revert st. induction l as [|o l IH]; intros st; simpl; [done|].
  by rewrite IH, dom_deliver.
Qed.

Lemma ensure_connection_keeps src dst cs k c :
  cs !! k = Some c → ensure_connection src dst cs !! k = Some c.
Proof.
  intros H. unfold ensure_connection. destruct (cs !! (src, dst)) eqn:Hk; [done|].
  rewrite lookup_insert_ne; [done|congruence].
Qed.

Lemma foldl_ensure_connection_keeps src l cs k c :
  cs !! k = Some c → foldl (λ cs' o, ensure_connection src o cs') cs l !! k = Some c.
Proof.
  revert cs. induction l as [|o l IH]; intros cs H; simpl; [done|].
  by apply IH, ensure_connection_keeps.
Qed.

Lemma elem_of_linked (src o : string) (l : list string) :
  (src, o) ∈ (list_to_set ((λ o', (src, o')) <$> l) : gset (string * string)) ↔ o ∈ l.
Proof.
  rewrite elem_of_list_to_set, list_elem_of_fmap. split.
  - by intros [o' [[= ->] ?]].
  - intros ?. by exists o.
Qed.

(** C5 (address resolution, as the code has it).  An event that carries a
    target address is linked to every node that currently has that
    address, not only to a unique one.  With no such node it creates no
    connection and no message record.  Otherwise a peer-connected or
    tunnel-created line leaves a connection from the node to each owner
    of the address, and a message-sent line appends one message record
    per owner, in the order of the [nodes] dict, creating no connection. *)
Theorem C5_every_owner_is_linked (node_id : string) (st : Store) (line a : string) :
  target (parse_line line) = Some a →
  let st' := process_line time_time strptime node_id st line in
  let os := owners a (nodes st) in
  (os = [] → connections st' = connections st ∧ messages st' = messages st)
  ∧ match parse_line line with
    | MessageSent _ c =>
        dom (connections st') = dom (connections st)
        ∧ Message.triple <$> messages st'
          = foldl (λ ms o, push_message (node_id, o, c) ms)
                  (Message.triple <$> messages st) os
    | _ =>
        dom (connections st')
        = list_to_set ((λ o, (node_id, o)) <$> os) ∪ dom (connections st)
        ∧ messages st' = messages st
    end.
Proof.
  intros Ht. simpl. unfold process_line.
  destruct (parse_line line) as [| |d ty|d c| |]; simplify_eq/=.
  - rewrite on_peer_connected_connections.
    rewrite (proj1 (on_peer_connected_messages _ _ _)).
    split; [by intros ->|]. split; [|done].
    apply (dom_foldl_link (ensure_connection node_id)).
    intros. apply dom_ensure_connection.
  - rewrite on_tunnel_created_connections.
    rewrite (proj1 (on_tunnel_created_messages _ _ _ _)).
    split; [by intros ->|]. split; [|done].
    apply (dom_foldl_link (λ o, set_tunnel node_id o ty)).
    intros. apply dom_set_tunnel.
  - unfold on_message_sent. cbn [nodes set_nodes].
    rewrite owners_alter_node by done.
    split; [by intros ->|].
    by rewrite dom_foldl_deliver, foldl_deliver_triples.
Qed.

Lemma foldl_ensure_connection_inv src l cs k c :
  foldl (λ cs' o, ensure_connection src o cs') cs l !! k = Some c →
  cs !! k = Some c ∨ ∃ o, o ∈ l ∧ k = (src, o) ∧ c = Connection.init src o.
Proof.
  revert cs. induction l as [|o l IH]; intros cs; simpl; [by left|].
  intros [H|(o' & Ho' & -> & ->)]%IH.
  - unfold ensure_connection in H. destruct (cs !! (src, o)) eqn:Ho; [by left|].
    destruct (decide (k = (src, o))) as [->|Hne].
    + rewrite lookup_insert_eq in H. injection H as <-.
      right. exists o. split; [by left|done].
    + rewrite lookup_insert_ne in H by done. by left.
  - right. exists o'. split; [by right|done].
Qed.

(** C8 (peer-connected, as the code has it).  A peer-connected line adds
    the peer's overlay address, as written in the line, to the peer set
    of the node whose log it is in, whether or not the address resolves;
    afterwards the connections are those that existed before, unmodified,
    and one from the node to each node that owns the address, a blank
    record when it is new: no connection with another source and none to
    a node that does not own the address is created.  The messages are as
    before. *)
Theorem C8_peer_connected_records_address (node_id : string) (st : Store)
    (line a : string) :
  known st node_id →
  parse_line line = PeerConnected a →
  let st' := process_line time_time strptime node_id st line in
  peers_of st' node_id = {[a]} ∪ peers_of st node_id
  ∧ (∀ s d, (s, d) ∈ dom (connections st')
            ↔ (s = node_id ∧ d ∈ owners a (nodes st)) ∨ (s, d) ∈ dom (connections st))
  ∧ (∀ k c, connections st !! k = Some c → connections st' !! k = Some c)
  ∧ (∀ k c, connections st' !! k = Some c → connections st !! k = None →
            ∃ o, o ∈ owners a (nodes st) ∧ k = (node_id, o)
                 ∧ c = Connection.init node_id o)
  ∧ messages st' = messages st.
Proof.
  intros [n Hn] Hline. simpl. unfold process_line, peers_of. rewrite Hline.
  rewrite on_peer_connected_nodes, on_peer_connected_connections.
  rewrite (proj1 (on_peer_connected_messages node_id a st)).
  rewrite lookup_alter_node_eq, Hn. simpl. split; [done|]. split; [|split; [|split]].
  - intros s d.
    rewrite (dom_foldl_link (ensure_connection node_id) node_id)
      by (intros; apply dom_ensure_connection).
    rewrite elem_of_union, elem_of_list_to_set, list_elem_of_fmap.
    split.
    + intros [(o & [= -> ->] & Ho)|H]; [by left|by right].
    + intros [[-> Hd]|H]; [left; by exists d|by right].
  - intros k c. apply foldl_ensure_connection_keeps.
  - intros k c H Hnone.
    apply foldl_ensure_connection_inv in H as [H|H]; [congruence|done].
  - done.
Qed.

(** ** Re-processing a topology line *)

Lemma alter_node_fixed f id ns :
  (∀ n, lookup_node id ns = Some n → f n = n) → alter_node f id ns = ns.
Proof.
  induction ns as [|[k n] ns IH]; simpl; [done|].
  destruct (decide (k = id)) as [->|Hk]; intros H.
  - by rewrite H.
  - by rewrite IH.
Qed.

Lemma foldl_ensure_connection_present src l cs :
  (∀ o, o ∈ l → (src, o) ∈ dom cs) →
  foldl (λ cs' o, ensure_connection src o cs') cs l = cs.
Proof.
  induction l as [|o l IH]; intros H; simpl; [done|].
  assert (ensure_connection src o cs = cs) as ->.
  { unfold ensure_connection.
    destruct (elem_of_dom cs (src, o)) as [[c ->] _]; [|done].
    apply H. by left. }
  apply IH. intros o' Ho'. apply H. by right.
Qed.

Lemma foldl_set_tunnel_same src ty l cs k c :
  cs !! k = Some c →
  ∃ c', foldl (λ cs' o, set_tunnel src o ty cs') cs l !! k = Some c'
        ∧ same_but_tunnel_type c c'.
Proof.
  revert cs c. induction l as [|o l IH]; intros cs c H; simpl.
  - exists c. by repeat split.
  - destruct (decide ((src, o) = k)) as [<-|Hne].
    + destruct (IH (set_tunnel src o ty cs) (Connection.set_tunnel_type ty c))
        as (c' & Hc' & Hs1 & Hs2 & Hs3 & Hs4).
      { unfold set_tunnel. rewrite H. apply lookup_insert_eq. }
      exists c'. by repeat split.
    + apply IH. unfold set_tunnel.
      destruct (cs !! (src, o)); by rewrite lookup_insert_ne.
Qed.

(** Once a peer-connected or tunnel-created line has been processed, the
    address is in the peer (tunnel) set and every owner of the address is
    connected: the conditions under which processing it again changes
    nothing of the structure. *)
Lemma processed_once (node_id : string) (st : Store) (line a : string) :
  known st node_id →
  let st' := process_line time_time strptime node_id st line in
  (parse_line line = PeerConnected a → a ∈ peers_of st' node_id)
  ∧ (∀ ty, parse_line line = TunnelCreated a ty → a ∈ tunnels_of st' node_id)
  ∧ (target (parse_line line) = Some a →
     (∀ c, parse_line line ≠ MessageSent a c) →
     ∀ o, o ∈ owners a (nodes st') → (node_id, o) ∈ dom (connections st')).
Proof.
  intros [n Hn]. simpl. unfold peers_of, tunnels_of.
  rewrite process_line_nodes, lookup_alter_node_eq, Hn. simpl.
  split; [|split].
  - intros ->. simpl. set_solver.
  - intros ty ->. simpl. set_solver.
  - intros Ht Hns o.
    rewrite owners_alter_node by (intros; by destruct (parse_line line)).
    unfold process_line.
    destruct (parse_line line) as [| |d ty|d c| |]; simplify_eq/=.
    + rewrite on_peer_connected_connections.
      rewrite (dom_foldl_link (ensure_connection node_id) node_id)
        by (intros; apply dom_ensure_connection).
      rewrite elem_of_union, elem_of_linked. by left.
    + rewrite on_tunnel_created_connections.
      rewrite (dom_foldl_link (λ o, set_tunnel node_id o ty) node_id)
        by (intros; apply dom_set_tunnel).
      rewrite elem_of_union, elem_of_linked. by left.
    + by destruct (Hns c).
Qed.

(** C10 (re-processing a topology line).  When the address of a
    peer-connected (tunnel-created) line is already in the peer (tunnel)
    set of the node and every node pair the line resolves to already has
    a connection, processing the line leaves every node record, the set
    of connection keys and the message sequence as they are; each
    existing connection keeps its fields, the tunnel type apart, and a
    peer-connected line changes nothing at all. *)
Theorem C10_reprocessing_keeps_structure (node_id : string) (st : Store)
    (line a : string) :
  (parse_line line = PeerConnected a ∧ a ∈ peers_of st node_id)
  ∨ (∃ ty, parse_line line = TunnelCreated a ty ∧ a ∈ tunnels_of st node_id) →
  (∀ o, o ∈ owners a (nodes st) → (node_id, o) ∈ dom (connections st)) →
  let st' := process_line time_time strptime node_id st line in
  nodes st' = nodes st
  ∧ (∀ id, peers_of st' id = peers_of st id ∧ tunnels_of st' id = tunnels_of st id)
  ∧ dom (connections st') = dom (connections st)
  ∧ (∀ k c, connections st !! k = Some c →
            ∃ c', connections st' !! k = Some c' ∧ same_but_tunnel_type c c')
  ∧ messages st' = messages st
  ∧ (parse_line line = PeerConnected a → st' = st).
Proof.
  intros Hline Hown. simpl.
  assert (nodes (process_line time_time strptime node_id st line) = nodes st) as Hnodes.
  { rewrite process_line_nodes. apply alter_node_fixed. intros n Hn.
    unfold peers_of, tunnels_of in Hline. rewrite Hn in Hline. simpl in Hline.
    destruct Hline as [[-> Ha]|(ty & -> & Ha)]; destruct n; simpl in *;
      unfold Node.add_peer, Node.add_tunnel; simpl; f_equal; set_solver. }
  split; [done|]. split.
  { intros id. unfold peers_of, tunnels_of. by rewrite Hnodes. }
  unfold process_line in *.
  destruct Hline as [[Hl Ha]|(ty & Hl & Ha)]; rewrite Hl in *.
  - assert (connections (on_peer_connected node_id a st) = connections st) as Hc.
    { rewrite on_peer_connected_connections.
      by apply foldl_ensure_connection_present. }
    pose proof (on_peer_connected_messages node_id a st) as [Hm Hk].
    rewrite Hc, Hm. repeat split; try done.
    + intros k c Hkc. exists c. by repeat split.
    + intros _. destruct (on_peer_connected node_id a st), st; simpl in *.
      by subst.
  - rewrite on_tunnel_created_connections.
    rewrite (proj1 (on_tunnel_created_messages _ _ _ _)).
    repeat split; try done.
    + rewrite (dom_foldl_link (λ o, set_tunnel node_id o ty) node_id)
        by (intros; apply dom_set_tunnel).
      apply set_eq. intros [s d]. rewrite elem_of_union.
      split; [|by right]. intros [Hin|?]; [|done].
      apply elem_of_list_to_set, list_elem_of_fmap in Hin as [o [[= -> ->] Ho]].
      by apply Hown.
    + intros k c Hkc. by apply foldl_set_tunnel_same.
Qed.

(** ** An owner that becomes known *)





Lemma address_update_statuses st o a :
  address_of st o = Some a → address_of (update_statuses time_time st) o = Some a.
Proof.
  unfold address_of, update_statuses. simpl.
  destruct (lookup_update_all o (nodes st) (clock st)) as [t ->].
  destruct (lookup_node o (nodes st)) as [n|]; [|done]. simpl.
  by rewrite (proj1 (update_status_fields t n)).
Qed.







End Properties.

(** ** Concrete runs *)

(** Updating the statuses leaves the counters as they are. *)
Lemma sent_of_update_statuses time_time st id :
  sent_of (update_statuses time_time st) id = sent_of st id.
Proof.
  apply (counter_update_statuses time_time Node.messages_sent).
  intros. apply update_status_fields.
Qed.

(** C2 (end-to-end scenario, as the code has it).  After one pass over
    [B.log] and [A.log], in that order, from the empty store, node A has
    [messages_sent = 1] and the message sequence holds the one record
    (A, B, hello); no connection (A, B) exists, since a message-sent line
    counts on a connection but never creates one.  When [A.log] also has
    the line [Connected to peer: addr-B] before the send, the connection
    (A, B) exists with a message count of 1. *)
Theorem C2_scenario_send_creates_no_connection
    (time_time : nat → Q) (strptime : string → option datetime) (tA tB : option Q) :
  (∃ st', parse_logs time_time strptime [B_log tB; A_log tA] initial = Some st'
     ∧ sent_of st' "A" = 1
     ∧ connections st' = ∅
     ∧ Message.triple <$> messages st' = [("A", "B", "hello")])
  ∧ (∃ st', parse_logs time_time strptime [B_log tB; A_log_connected tA] initial = Some st'
       ∧ sent_of st' "A" = 1
       ∧ dom (connections st') = {[("A", "B")]}
       ∧ message_count st' "A" "B" = Some 1
       ∧ Message.triple <$> messages st' = [("A", "B", "hello")]).
Proof.
  split; unfold parse_logs.
  - set (r := process_files _ _ _ _).
    destruct tA, tB; vm_compute in r; subst r; cbv beta iota;
      (eexists; split; [reflexivity|]);
      rewrite sent_of_update_statuses; repeat split; vm_compute; reflexivity.
  - set (r := process_files _ _ _ _).
    destruct tA, tB; vm_compute in r; subst r; cbv beta iota;
      (eexists; split; [reflexivity|]);
      rewrite sent_of_update_statuses; repeat split; vm_compute; reflexivity.
Qed.

(** C1 as the specification states it fails: two passes over the same,
    unchanged sources count the one message-sent line of [A.log] twice, in
    [messages_sent] of node A and in the message count of the connection
    (A, B). *)
Lemma C1_second_pass_counts_again :
  parse_logs clock0 no_date connected_listing initial = Some after_one_pass
  ∧ parse_logs clock0 no_date connected_listing after_one_pass = Some after_two_passes
  ∧ sent_of after_one_pass "A" = 1
  ∧ sent_of after_two_passes "A" = 2
  ∧ message_count after_one_pass "A" "B" = Some 1
  ∧ message_count after_two_passes "A" "B" = Some 2.
Proof. repeat split; vm_compute; reflexivity. Qed.

(** C1 on two passes over [connected_listing]: the second pass adds the one
    message-sent line of [A.log] again. *)
Lemma C1_every_pass_recounts_witness :
  readable connected_listing
  ∧ sent_of after_two_passes "A"
    = sent_of after_one_pass "A" + listing_weight sent_weight "A" connected_listing
  ∧ listing_weight sent_weight "A" connected_listing = 1.
Proof.
  assert (readable connected_listing) as Hread.
  { intros f Hf _. apply list_elem_of_In in Hf. simpl in Hf.
    destruct Hf as [<-|[<-|[]]]; eexists; reflexivity. }
  destruct (C1_every_pass_recounts clock0 no_date connected_listing initial Hread)
    as (st1 & st2 & H1 & H2 & Hs & _).
  assert (st1 = after_one_pass) as ->.
  { assert (parse_logs clock0 no_date connected_listing initial = Some after_one_pass)
      as E by (vm_compute; reflexivity).
    rewrite E in H1. injection H1 as <-. reflexivity. }
  assert (st2 = after_two_passes) as ->.
  { assert (parse_logs clock0 no_date connected_listing after_one_pass
            = Some after_two_passes) as E by (vm_compute; reflexivity).
    rewrite E in H2. injection H2 as <-. reflexivity. }
  split; [exact Hread|]. split; [apply Hs|].
  vm_compute; reflexivity.
Defined.

(** C2 as the specification states it fails: after the pass of the scenario
    there is no connection (A, B), in either order of the listing; with
    [A.log] first the send is not resolved at all. *)
Lemma C2_no_connection_after_the_pass :
  (λ st, (sent_of st "A", connections st !! ("A", "B"), Message.triple <$> messages st))
    <$> parse_logs clock0 no_date [B_log None; A_log None] initial
  = Some (1, None, [("A", "B", "hello")])
  ∧ (λ st, (sent_of st "A", connections st !! ("A", "B"), Message.triple <$> messages st))
      <$> parse_logs clock0 no_date [A_log None; B_log None] initial
    = Some (1, None, []).
Proof. split; vm_compute; reflexivity. Qed.

(** C4 as the specification states it fails: of two node-initialized lines
    of one node, the address of the second is the one stored. *)
Lemma C4_second_address_replaces_first :
  (λ st, address_of st "N") <$> parse_logs clock0 no_date [N_log] initial
  = Some (Some "addr-2").
Proof. vm_compute; reflexivity. Qed.

(** C4 on the two lines of [N.log]: the second address replaces the first. *)
Lemma C4_node_initialized_overwrites_witness :
  let st := process_line clock0 no_date "N" (register N_log initial)
              (ln "Node initialized with overlay address: addr-1") in
  let line := ln "Node initialized with overlay address: addr-2" in
  known st "N"
  ∧ parse_line line = NodeInitialized "addr-2"
  ∧ address_of st "N" = Some "addr-1"
  ∧ address_of (process_line clock0 no_date "N" st line) "N" = Some "addr-2".
Proof.
  intros st line.
  assert (known st "N") as Hk by (vm_compute; eexists; reflexivity).
  assert (parse_line line = NodeInitialized "addr-2") as Hl by (vm_compute; reflexivity).
  split; [exact Hk|]. split; [exact Hl|]. split; [vm_compute; reflexivity|].
  apply (C4_node_initialized_overwrites clock0 no_date "N" st line "addr-2" Hk Hl).
Defined.

(** C5 as the specification states it fails: when two nodes advertise the
    address, the peer-connected line is linked to both of them and the
    message-sent line leaves a message record for each. *)
Lemma C5_two_owners_are_both_linked :
  (λ st, (owners "addr-B" (nodes st), dom (connections st),
          Message.triple <$> messages st))
    <$> parse_logs clock0 no_date
          [B_log None; C_log_same_address; A_log_to_shared] initial
  = Some (["B"; "C"], {[("A", "B"); ("A", "C")]},
          [("A", "B", "hi"); ("A", "C", "hi")]).
Proof. vm_compute; reflexivity. Qed.

(** C5 on the peer-connected line of node A when B and C share the address. *)
Lemma C5_every_owner_is_linked_witness :
  let line := ln "Connected to peer: addr-B" in
  let st := register A_log_to_shared shared_address in
  target (parse_line line) = Some "addr-B"
  ∧ owners "addr-B" (nodes st) = ["B"; "C"]
  ∧ dom (connections (process_line clock0 no_date "A" st line))
    = list_to_set [("A", "B"); ("A", "C")] ∪ dom (connections st).
Proof.
  intros line st.
  assert (target (parse_line line) = Some "addr-B") as Ht by (vm_compute; reflexivity).
  split; [exact Ht|]. split; [vm_compute; reflexivity|].
  assert (parse_line line = PeerConnected "addr-B") as Hl by (vm_compute; reflexivity).
  assert (owners "addr-B" (nodes st) = ["B"; "C"]) as Ho by (vm_compute; reflexivity).
  pose proof (C5_every_owner_is_linked clock0 no_date "A" st line "addr-B" Ht) as H.
  cbv zeta in H. rewrite Hl, Ho in H. apply H.
Defined.

(** C6 at the store the scenario leaves: it is reachable, its sequence has
    one record, and an insertion appends the second. *)
Lemma C6_message_sequence_bounded_fifo_witness :
  reachable clock0 no_date after_one_pass
  ∧ length (messages after_one_pass) = 1
  ∧ length (messages (deliver clock0 "A" "again" None after_one_pass "B")) ≤ 100.
Proof.
  assert (reachable clock0 no_date after_one_pass) as Hr.
  { apply (reachable_parse_logs clock0 no_date connected_listing initial).
    - apply reachable_initial.
    - vm_compute; reflexivity. }
  split; [exact Hr|]. split; [vm_compute; reflexivity|].
  destruct (C6_message_sequence_bounded_fifo clock0 no_date after_one_pass
              "A" "again" None "B" Hr) as (_ & msg & _ & H & _).
  exact H.
Defined.

(** C8 as the specification states it fails: the peer set of node A holds
    the address written in the line, not the id of node B that owns it, and
    it holds the address also when no node owns it. *)
Lemma C8_peer_set_holds_addresses :
  (λ st, (owners "addr-B" (nodes st), peers_of st "A",
          bool_decide ("B" ∈ peers_of st "A")))
    <$> parse_logs clock0 no_date connected_listing initial
  = Some (["B"], {["addr-B"]}, false)
  ∧ (λ st, (owners "addr-B" (nodes st), peers_of st "A"))
      <$> parse_logs clock0 no_date [A_log_peer_only] initial
    = Some ([], {["addr-B"]}).
Proof. split; vm_compute; reflexivity. Qed.

(** C8 on the peer-connected line of [A.log], read before any node has the
    address. *)
Lemma C8_peer_connected_records_address_witness :
  let line := ln "Connected to peer: addr-B" in
  let st := register A_log_peer_only initial in
  known st "A"
  ∧ parse_line line = PeerConnected "addr-B"
  ∧ peers_of (process_line clock0 no_date "A" st line) "A"
    = {["addr-B"]} ∪ peers_of st "A".
Proof.
  intros line st.
  assert (known st "A") as Hk by (vm_compute; eexists; reflexivity).
  assert (parse_line line = PeerConnected "addr-B") as Hl by (vm_compute; reflexivity).
  split; [exact Hk|]. split; [exact Hl|].
  apply (C8_peer_connected_records_address clock0 no_date "A" st line "addr-B" Hk Hl).
Defined.



(** C10 at the store the scenario leaves: node A has the address addr-B in
    its peer set and the connection (A, B) exists, and processing the
    peer-connected line again changes nothing. *)
Lemma C10_reprocessing_keeps_structure_witness :
  let line := ln "Connected to peer: addr-B" in
  parse_line line = PeerConnected "addr-B"
  ∧ "addr-B" ∈ peers_of after_one_pass "A"
  ∧ owners "addr-B" (nodes after_one_pass) = ["B"]
  ∧ ("A", "B") ∈ dom (connections after_one_pass)
  ∧ process_line clock0 no_date "A" after_one_pass line = after_one_pass.
Proof.
  intros line.
  assert (parse_line line = PeerConnected "addr-B") as Hl by (vm_compute; reflexivity).
  assert ("addr-B" ∈ peers_of after_one_pass "A") as Hp by (vm_compute; reflexivity).
  assert (owners "addr-B" (nodes after_one_pass) = ["B"]) as Ho
    by (vm_compute; reflexivity).
  assert (("A", "B") ∈ dom (connections after_one_pass)) as Hd
    by (vm_compute; reflexivity).
  split; [exact Hl|]. split; [exact Hp|]. split; [exact Ho|]. split; [exact Hd|].
  apply (C10_reprocessing_keeps_structure clock0 no_date "A" after_one_pass line "addr-B").
  - left. split; [exact Hl|exact Hp].
  - intros o Hin. rewrite Ho in Hin.
    apply list_elem_of_In in Hin. simpl in Hin. destruct Hin as [<-|[]]. exact Hd.
  - exact Hl.
Defined.

(** * Further properties *)

(** ** Lists, dicts and records *)

Lemma lookup_node_keys id (ns : list (string * Node.t)) :
  is_Some (lookup_node id ns) ↔ id ∈ ns.*1.
Proof.
  induction ns as [|[k n] ns IH]; csimpl.
  - split; [by intros [? ?]|by intros ?%elem_of_nil].
  - rewrite elem_of_cons. destruct (decide (k = id)) as [->|Hk].
    + split; [by left|by eexists].
    + rewrite IH. split; [by right|]. by intros [?|?].
Qed.

Lemma ensure_node_keys id n ns :
  (ensure_node id n ns).*1 = ns.*1 ++ (if decide (id ∈ ns.*1) then [] else [id]).
Proof.
  unfold ensure_node. destruct (lookup_node id ns) eqn:H.
  - rewrite decide_True; [by rewrite app_nil_r|]. apply lookup_node_keys. by eexists.
  - rewrite decide_False; [by rewrite fmap_app|].
    intros Hin%lookup_node_keys. rewrite H in Hin. by destruct Hin.
Qed.

Lemma register_keys f st :
  let id := parse_node_id_from_filename (filename f) in
  (nodes (register f st)).*1
  = (nodes st).*1 ++ (if decide (id ∈ (nodes st).*1) then [] else [id]).
Proof.
  simpl. rewrite register_nodes. simpl.
  destruct (mtime f); by rewrite ?alter_node_keys, ensure_node_keys.
Qed.

Lemma log_ids_cons f listing : log_ids (f :: listing) = log_ids [f] ++ log_ids listing.
Proof.
  unfold log_ids. rewrite !filter_cons, filter_nil.
  destruct (decide (is_log f)); by csimpl.
Qed.

Lemma node_effect_identity ev n :
  Node.node_id (node_effect ev n) = Node.node_id n
  ∧ Node.federation (node_effect ev n) = Node.federation n
  ∧ Node.last_seen (node_effect ev n) = Node.last_seen n.
Proof. by destruct ev. Qed.

Lemma update_status_identity now n :
  Node.node_id (Node.update_status now n) = Node.node_id n
  ∧ Node.federation (Node.update_status now n) = Node.federation n
  ∧ Node.last_seen (Node.update_status now n) = Node.last_seen n
  ∧ Node.status (Node.update_status now n) = classify (now - Node.last_seen n).
Proof.
  unfold Node.update_status, classify. by repeat destruct (Qlt_le_dec _ _).
Qed.

Lemma last_seen_register f st id :
  last_seen_of (register f st) id
  = if decide (parse_node_id_from_filename (filename f) = id)
    then default (last_seen_of st id) (mtime f) else last_seen_of st id.
Proof.
  unfold last_seen_of. rewrite register_nodes. simpl.
  set (nid := parse_node_id_from_filename (filename f)).
  assert (from_option Node.last_seen 0%Q
            (lookup_node id (ensure_node nid
               (Node.init nid (parse_federation_from_node_id nid)) (nodes st)))
          = from_option Node.last_seen 0%Q (lookup_node id (nodes st))) as He.
  { rewrite lookup_ensure_node. destruct (lookup_node id (nodes st)); [done|].
    by case_decide. }
  destruct (mtime f) as [t|]; simpl.
  - rewrite lookup_alter_node. destruct (decide (nid = id)) as [Heq|]; [|done].
    pose proof (ensure_node_known nid (Node.init nid (parse_federation_from_node_id nid))
                  (nodes st)) as [m Hm].
    rewrite <- Heq, Hm. done.
  - by case_decide.
Qed.

Lemma set_tunnel_type_twice ty c :
  Connection.set_tunnel_type ty (Connection.set_tunnel_type ty c)
  = Connection.set_tunnel_type ty c.
Proof. done. Qed.

Lemma foldl_set_tunnel_lookup src ty l cs d :
  foldl (λ cs' o, set_tunnel src o ty cs') cs l !! (src, d)
  = if decide (d ∈ l)
    then Some (Connection.set_tunnel_type ty
                 (default (Connection.init src d) (cs !! (src, d))))
    else cs !! (src, d).
Proof.
  revert cs. induction l as [|o l IH]; intros cs; cbn [foldl].
  - destruct (decide (d ∈ [])) as [?%elem_of_nil|]; done.
  - rewrite IH.
    assert (d ∈ o :: l ↔ o = d ∨ d ∈ l) as Hcons
      by (rewrite elem_of_cons; naive_solver).
    destruct (decide (o = d)) as [->|Hne].
    + destruct (decide (d ∈ d :: l)) as [_|Hn]; [|destruct Hn; by left].
      unfold set_tunnel.
      destruct (cs !! (src, d)) as [c|] eqn:Hc; rewrite lookup_insert_eq; simpl;
        by destruct (decide (d ∈ l)).
    + assert (set_tunnel src o ty cs !! (src, d) = cs !! (src, d)) as ->.
      { unfold set_tunnel.
        destruct (cs !! (src, o)); rewrite lookup_insert_ne; congruence. }
      destruct (decide (d ∈ l)), (decide (d ∈ o :: l)); naive_solver.
Qed.

Lemma foldl_set_tunnel_other src ty l cs s d :
  s ≠ src → foldl (λ cs' o, set_tunnel src o ty cs') cs l !! (s, d) = cs !! (s, d).
Proof.
  intros Hs. revert cs. induction l as [|o l IH]; intros cs; simpl; [done|].
  rewrite IH. unfold set_tunnel.
  destruct (cs !! (src, o)); rewrite lookup_insert_ne; congruence.
Qed.

Lemma sent_of_register f st id : sent_of (register f st) id = sent_of st id.
Proof. by apply (counter_register Node.messages_sent). Qed.

Lemma NoDup_owners a (ns : list (string * Node.t)) : NoDup ns.*1 → NoDup (owners a ns).
Proof.
  unfold owners. induction ns as [|[k n] ns IH]; csimpl; [constructor|].
  intros [Hk Hd]%NoDup_cons. rewrite filter_cons. case_decide; csimpl; [|auto].
  apply NoDup_cons. split; [|auto].
  intros Hin. apply Hk.
  apply list_elem_of_fmap in Hin as [x [-> Hx%list_elem_of_filter]].
  apply list_elem_of_fmap. exists x. split; [done|apply Hx].
Qed.

Lemma owners_known a o st : o ∈ owners a (nodes st) → known st o.
Proof.
  intros (n & Hin & _)%elem_of_owners. apply lookup_node_keys.
  apply list_elem_of_fmap. by exists (o, n).
Qed.

Lemma elem_of_push_message {A} (x m : A) (l : list A) :
  m ∈ push_message x l → m = x ∨ m ∈ l.
Proof.
  unfold push_message. destruct (100 <? length (l ++ [x])).
  - destruct l as [|y l]; simpl.
    + by intros ?%elem_of_nil.
    + intros [?|Hx%list_elem_of_singleton]%elem_of_app; [right; by right|by left].
  - intros [?|Hx%list_elem_of_singleton]%elem_of_app; [by right|by left].
Qed.

Lemma linked_ok_register f st : linked_ok st → linked_ok (register f st).
Proof.
  intros (Hc & Hm & Hd). split; [|split].
  - intros s d c. rewrite (proj2 (register_messages f st)). intros H.
    destruct (Hc _ _ _ H) as (? & ? & ? & ? & ?).
    rewrite sent_of_register. repeat split; auto using register_known_mono.
  - intros m. rewrite (proj1 (register_messages f st)). intros H.
    destruct (Hm m H). split; by apply register_known_mono.
  - rewrite register_keys. simpl. case_decide; [by rewrite app_nil_r|].
    apply NoDup_app. split; [done|]. split; [|apply NoDup_singleton].
    intros x Hx Hx'%list_elem_of_singleton. by subst.
Qed.

Lemma linked_ok_initial : linked_ok initial.
Proof.
  split; [|split]; [done| |constructor]. by intros m ?%elem_of_nil.
Qed.

Lemma foldl_ensure_connection_other src l cs s d :
  s ≠ src → foldl (λ cs' o, ensure_connection src o cs') cs l !! (s, d) = cs !! (s, d).
Proof.
  intros Hs. revert cs. induction l as [|o l IH]; intros cs; simpl; [done|].
  rewrite IH. unfold ensure_connection.
  destruct (cs !! (src, o)); [done|]. rewrite lookup_insert_ne; congruence.
Qed.

Section MoreProperties.

Variable time_time : nat → Q.
Variable strptime : string → option datetime.

(** ** A pass and its listing *)

Lemma process_files_filter listing st :
  process_files time_time strptime (filter is_log listing) st
  = process_files time_time strptime listing st.
Proof.
  revert st. induction listing as [|f listing IH]; intros st; [done|].
  rewrite filter_cons. simpl. unfold is_log at 1.
  destruct (decide (Str.endswith ".log" (filename f) = true)) as [He|He]; simpl.
  - destruct (process_file time_time strptime f st); [apply IH|done].
  - unfold process_file. apply not_true_is_false in He. rewrite He. apply IH.
Qed.

(** X2.  Entries of the directory that do not end in [.log] have no effect
    on a pass: not on its result, and not on whether it returns. *)
Theorem other_entries_are_ignored (listing : list LogFile) (st : Store) :
  parse_logs time_time strptime listing st
  = parse_logs time_time strptime (filter is_log listing) st.
Proof. unfold parse_logs. by rewrite process_files_filter. Qed.

(** ** The node records *)

Lemma update_all_keys ns now : (update_all time_time ns now).*1 = ns.*1.
Proof.
  revert now. induction ns as [|[k n] ns IH]; intros now; csimpl; [done|].
  by rewrite IH.
Qed.

Lemma process_file_keys f st st' :
  process_file time_time strptime f st = Some st' →
  ∃ new, (nodes st').*1 = (nodes st).*1 ++ new
    ∧ ∀ id, id ∈ new ↔ (id ∉ (nodes st).*1) ∧ id ∈ log_ids [f].
Proof.
  unfold process_file, log_ids. rewrite filter_cons, filter_nil.
  destruct (decide (is_log f)) as [He|He]; unfold is_log in He.
  - rewrite He. destruct (content f) as [lines|]; [|done]. intros [= <-].
    rewrite foldl_process_line_keys, register_keys.
    eexists. split; [done|]. intros id. csimpl. rewrite list_elem_of_singleton.
    destruct (decide (_ ∈ (nodes st).*1)) as [Hin|Hin].
    + split; [by intros ?%elem_of_nil|]. intros [Hn ->]. done.
    + rewrite list_elem_of_singleton. split; [by intros ->|by intros [_ ->]].
  - apply not_true_is_false in He. rewrite He.
    intros [= <-]. exists []. rewrite app_nil_r. split; [done|]. csimpl.
    split; [by intros ?%elem_of_nil|]. by intros [_ ?%elem_of_nil].
Qed.

Lemma process_files_keys listing st st' :
  process_files time_time strptime listing st = Some st' →
  ∃ new, (nodes st').*1 = (nodes st).*1 ++ new
    ∧ ∀ id, id ∈ new ↔ (id ∉ (nodes st).*1) ∧ id ∈ log_ids listing.
Proof.
  revert st. induction listing as [|f listing IH]; intros st; simpl.
  - intros [= <-]. exists []. rewrite app_nil_r. split; [done|].
    intros id. split; [by intros ?%elem_of_nil|]. by intros [_ ?%elem_of_nil].
  - destruct (process_file time_time strptime f st) as [st1|] eqn:Hf; [|done].
    intros Hrest.
    destruct (process_file_keys _ _ _ Hf) as (new1 & E1 & H1).
    destruct (IH _ Hrest) as (new2 & E2 & H2).
    exists (new1 ++ new2). split; [by rewrite E2, E1, app_assoc|].
    intros id. rewrite log_ids_cons, !elem_of_app, H1, H2, E1, elem_of_app, H1.
    destruct (decide (id ∈ (nodes st).*1)); destruct (decide (id ∈ log_ids [f]));
      naive_solver.
Qed.

(** X3.  A pass never removes a node and never reorders the [nodes] dict:
    the ids it had stay, in their order, and the ids added after them are
    exactly the ids of the listed log files that were not known before. *)
Theorem nodes_only_grow (listing : list LogFile) (st st' : Store) :
  parse_logs time_time strptime listing st = Some st' →
  ∃ new, (nodes st').*1 = (nodes st).*1 ++ new
    ∧ ∀ id, id ∈ new ↔ ¬ known st id ∧ id ∈ log_ids listing.
Proof.
  unfold parse_logs.
  destruct (process_files time_time strptime listing st) as [st1|] eqn:Hf; [|done].
  intros [= <-]. simpl. rewrite update_all_keys.
  destruct (process_files_keys _ _ _ Hf) as (new & E & H).
  exists new. split; [done|]. intros id. unfold known.
  by rewrite H, lookup_node_keys.
Qed.

Lemma lookup_update_all_at id ns now n' :
  lookup_node id (update_all time_time ns now) = Some n' →
  ∃ i n, now ≤ i < now + length ns ∧ lookup_node id ns = Some n
         ∧ n' = Node.update_status (time_time i) n.
Proof.
  revert now. induction ns as [|[k n] ns IH]; intros now; simpl; [done|].
  destruct (decide (k = id)) as [->|Hk].
  - intros [= <-]. exists now, n. split; [lia|done].
  - intros H. destruct (IH _ H) as (i & m & Hi & Hm & ->).
    exists i, m. split; [lia|done].
Qed.

Lemma reachable_records st :
  reachable time_time strptime st →
  NoDup (nodes st).*1 ∧ ∀ id n, lookup_node id (nodes st) = Some n → record_ok id n.
Proof.
  induction 1 as [|f st _ [IHd IHr]|node_id st line _ [IHd IHr]|st _ [IHd IHr]].
  - split; [constructor|done].
  - split.
    + rewrite register_keys. simpl. case_decide; [by rewrite app_nil_r|].
      apply NoDup_app. split; [done|]. split; [|apply NoDup_singleton].
      intros x Hx Hx'%list_elem_of_singleton. by subst.
    + intros id n. rewrite register_nodes. simpl.
      set (nid := parse_node_id_from_filename (filename f)).
      assert (∀ m, lookup_node id (ensure_node nid
                     (Node.init nid (parse_federation_from_node_id nid)) (nodes st))
                   = Some m → record_ok id m) as He.
      { intros m. rewrite lookup_ensure_node.
        destruct (lookup_node id (nodes st)) eqn:Hl; [intros [= <-]; eauto|].
        case_decide; [|done]. intros [= <-]. by subst. }
      destruct (mtime f); [|apply He].
      rewrite lookup_alter_node. case_decide; [|apply He].
      destruct (lookup_node id _) as [m|]; [|done]. intros [= <-].
      by destruct (He m eq_refl).
  - split; [by rewrite process_line_nodes, alter_node_keys|].
    intros id n. rewrite process_line_nodes, lookup_alter_node.
    case_decide; [|apply IHr].
    destruct (lookup_node id (nodes st)) as [m|] eqn:Hm; [|done]. intros [= <-].
    destruct (IHr id m Hm) as [? ?], (node_effect_identity (parse_line line) m)
      as (? & ? & _).
    split; congruence.
  - split; [simpl; by rewrite update_all_keys|].
    intros id n Hn. simpl in Hn.
    destruct (lookup_update_all_at _ _ _ _ Hn) as (i & m & _ & Hm & ->).
    destruct (IHr id m Hm) as [? ?], (update_status_identity (time_time i) m)
      as (? & ? & _).
    split; congruence.
Qed.

(** X4.  In every store the monitor can be in, the ids of the [nodes] dict
    are pairwise distinct, every record carries the id it is stored under,
    and its federation is the label the classifier gives that id: no line
    and no later pass changes the label a node was created with. *)
Theorem node_records_are_consistent (st : Store) :
  reachable time_time strptime st →
  NoDup (nodes st).*1
  ∧ ∀ id n, lookup_node id (nodes st) = Some n →
            Node.node_id n = id
            ∧ Node.federation n = parse_federation_from_node_id id.
Proof. apply reachable_records. Qed.

Lemma clock_deliver node_id c ts st o :
  clock st ≤ clock (deliver time_time node_id c ts st o).
Proof.
  unfold deliver. destruct (connections st !! (node_id, o)), ts; simpl; lia.
Qed.

Lemma clock_foldl_deliver node_id c ts l st :
  clock st ≤ clock (foldl (deliver time_time node_id c ts) st l).
Proof.
  revert st. induction l as [|o l IH]; intros st; simpl; [lia|].
  etrans; [apply (clock_deliver node_id c ts st o)|apply IH].
Qed.

Lemma clock_process_line node_id st line :
  clock st ≤ clock (process_line time_time strptime node_id st line).
Proof.
  unfold process_line. destruct (parse_line line); simpl; try lia.
  - by rewrite (proj2 (on_peer_connected_messages _ _ _)).
  - by rewrite (proj2 (on_tunnel_created_messages _ _ _ _)).
  - unfold on_message_sent. etrans; [|apply clock_foldl_deliver]. simpl. lia.
Qed.

Lemma clock_foldl_process_line node_id lines st :
  clock st ≤ clock (foldl (process_line time_time strptime node_id) st lines).
Proof.
  revert st. induction lines as [|line lines IH]; intros st; simpl; [lia|].
  etrans; [apply (clock_process_line node_id st line)|apply IH].
Qed.

Lemma clock_process_files listing st st' :
  process_files time_time strptime listing st = Some st' → clock st ≤ clock st'.
Proof.
  revert st. induction listing as [|f listing IH]; intros st; simpl.
  - intros [= <-]. lia.
  - destruct (process_file time_time strptime f st) as [st1|] eqn:Hf; [|done].
    intros H. apply IH in H. etrans; [|exact H].
    unfold process_file in Hf.
    destruct (Str.endswith ".log" (filename f)); [|injection Hf as <-; lia].
    destruct (content f) as [lines|]; [|done]. injection Hf as <-.
    etrans; [|apply clock_foldl_process_line].
    unfold register. destruct (mtime f); simpl; lia.
Qed.

(** X5.  When a pass returns, every node of the store, also one whose log
    file is no longer listed, has a status other than unknown: the status
    that the gap between its [last_seen] and a clock reading made during
    this pass classifies to. *)
Theorem no_status_unknown_after_a_pass (listing : list LogFile) (st st' : Store)
    (id : string) (n : Node.t) :
  parse_logs time_time strptime listing st = Some st' →
  lookup_node id (nodes st') = Some n →
  Node.status n ≠ Unknown
  ∧ ∃ i, clock st ≤ i < clock st'
      ∧ Node.status n = classify (time_time i - Node.last_seen n).
Proof.
  unfold parse_logs.
  destruct (process_files time_time strptime listing st) as [st1|] eqn:Hp; [|done].
  intros [= <-] Hn. simpl in *. apply clock_process_files in Hp.
  destruct (lookup_update_all_at _ _ _ _ Hn) as (i & m & Hi & Hm & ->).
  destruct (update_status_identity (time_time i) m) as (_ & _ & Hl & Hs).
  rewrite Hs, Hl. split.
  - unfold classify. by repeat destruct (Qlt_le_dec _ _).
  - exists i. split; [lia|done].
Qed.

(** ** The time a node was last seen *)

Lemma last_seen_process_line node_id st line id :
  last_seen_of (process_line time_time strptime node_id st line) id = last_seen_of st id.
Proof.
  unfold last_seen_of. rewrite process_line_nodes, lookup_alter_node.
  case_decide; [|done]. destruct (lookup_node id (nodes st)) as [n|]; [|done].
  simpl. apply node_effect_identity.
Qed.

Lemma last_seen_foldl_process_line node_id lines st id :
  last_seen_of (foldl (process_line time_time strptime node_id) st lines) id
  = last_seen_of st id.
Proof.
  revert st. induction lines as [|l lines IH]; intros st; simpl; [done|].
  by rewrite IH, last_seen_process_line.
Qed.

Lemma last_seen_process_file f st st' id :
  process_file time_time strptime f st = Some st' →
  last_seen_of st' id = default (last_seen_of st id) (latest_mtime id [f]).
Proof.
  unfold process_file. simpl.
  destruct (decide (is_log f ∧ _)) as [[He Hid]|Hn].
  - unfold is_log in He. rewrite He.
    destruct (content f); [|done]. intros [= <-].
    rewrite last_seen_foldl_process_line, last_seen_register.
    by rewrite decide_True.
  - destruct (Str.endswith ".log" (filename f)) eqn:He; [|by intros [= <-]].
    destruct (content f); [|done]. intros [= <-].
    rewrite last_seen_foldl_process_line, last_seen_register.
    rewrite decide_False; [done|]. intros ?. by apply Hn.
Qed.

Lemma last_seen_process_files listing st st' id :
  process_files time_time strptime listing st = Some st' →
  last_seen_of st' id = default (last_seen_of st id) (latest_mtime id listing).
Proof.
  revert st. induction listing as [|f listing IH]; intros st.
  - by intros [= <-].
  - cbn [process_files].
    destruct (process_file time_time strptime f st) as [st1|] eqn:Hf; [|done].
    intros Hrest. rewrite (IH _ Hrest), (last_seen_process_file _ _ _ _ Hf).
    simpl. by destruct (latest_mtime id listing).
Qed.

(** X6.  After a pass the [last_seen] of a node is the modification time
    of the last entry of the listing that is a log file of the node and
    exists; the lines of the logs never change it, and with no such entry
    it keeps the value it had (0 for a node the pass creates). *)
Theorem last_seen_is_the_latest_mtime (listing : list LogFile) (st st' : Store)
    (id : string) :
  parse_logs time_time strptime listing st = Some st' →
  last_seen_of st' id = default (last_seen_of st id) (latest_mtime id listing).
Proof.
  unfold parse_logs.
  destruct (process_files time_time strptime listing st) as [st1|] eqn:Hf; [|done].
  intros [= <-]. rewrite <- (last_seen_process_files _ _ _ _ Hf).
  unfold last_seen_of. simpl.
  destruct (lookup_node id (update_all _ _ _)) as [n'|] eqn:Hn.
  - destruct (lookup_update_all_at _ _ _ _ Hn) as (i & m & _ & -> & ->).
    simpl. apply update_status_identity.
  - destruct (lookup_update_all time_time id (nodes st1) (clock st1)) as [t Ht].
    rewrite Hn in Ht. by destruct (lookup_node id (nodes st1)).
Qed.

End MoreProperties.

Section Linked.

Variable time_time : nat → Q.
Variable strptime : string → option datetime.

(** ** Tunnels *)

(** X7.  A tunnel-created line adds its destination address to the tunnel
    set of the node, resolved or not; for every node that owns the address
    it leaves the connection from the node with the type of the line,
    keeping the counts of a connection that existed and starting a new one
    at zero; it touches no other connection. *)
Theorem tunnel_created_sets_the_type (node_id : string) (st : Store)
    (line a ty : string) :
  known st node_id →
  parse_line line = TunnelCreated a ty →
  let st' := process_line time_time strptime node_id st line in
  tunnels_of st' node_id = {[a]} ∪ tunnels_of st node_id
  ∧ (∀ o, o ∈ owners a (nodes st) →
          connections st' !! (node_id, o)
          = Some (Connection.set_tunnel_type ty
                    (default (Connection.init node_id o)
                       (connections st !! (node_id, o)))))
  ∧ (∀ s d, ¬ (s = node_id ∧ d ∈ owners a (nodes st)) →
            connections st' !! (s, d) = connections st !! (s, d)).
Proof.
  intros [n Hn] Hl. simpl. unfold tunnels_of.
  rewrite process_line_nodes, lookup_alter_node_eq, Hn, Hl. simpl.
  unfold process_line. rewrite Hl, on_tunnel_created_connections.
  split; [done|]. split.
  - intros o Ho. by rewrite foldl_set_tunnel_lookup, decide_True.
  - intros s d Hsd. destruct (decide (s = node_id)) as [->|Hs].
    + rewrite foldl_set_tunnel_lookup, decide_False; [done|]. intros ?. by apply Hsd.
    + by apply foldl_set_tunnel_other.
Qed.

(** ** End points and counts *)

Lemma sent_of_process_line node_id st line id :
  known st node_id →
  sent_of (process_line time_time strptime node_id st line) id
  = sent_of st id + (if decide (node_id = id) then sent_weight (parse_line line) else 0).
Proof.
  apply (counter_process_line time_time strptime Node.messages_sent sent_weight).
  intros [] ?; simpl; lia.
Qed.

Lemma deliver_connections node_id c ts st o :
  connections (deliver time_time node_id c ts st o)
  = match connections st !! (node_id, o) with
    | Some c1 =>
        <[(node_id, o) := Connection.count_message (time_time (clock st)) c1]>
          (connections st)
    | None => connections st
    end.
Proof. unfold deliver. by destruct (connections st !! (node_id, o)), ts. Qed.

Lemma deliver_connection node_id c ts st o s d c' :
  connections (deliver time_time node_id c ts st o) !! (s, d) = Some c' →
  ∃ c0, connections st !! (s, d) = Some c0
        ∧ Connection.source c' = Connection.source c0
        ∧ Connection.dest c' = Connection.dest c0
        ∧ Connection.messages c'
          = Connection.messages c0 + (if decide (s = node_id ∧ d = o) then 1 else 0).
Proof.
  rewrite deliver_connections.
  destruct (decide (s = node_id ∧ d = o)) as [[-> ->]|Hne].
  - destruct (connections st !! (node_id, o)) as [c1|] eqn:Hc1;
      [|simpl; by rewrite Hc1].
    rewrite lookup_insert_eq. intros [= <-]. exists c1. simpl.
    repeat split; try done; lia.
  - assert (connections st !! (s, d) = Some c' →
            ∃ c0, connections st !! (s, d) = Some c0
                  ∧ Connection.source c' = Connection.source c0
                  ∧ Connection.dest c' = Connection.dest c0
                  ∧ Connection.messages c' = Connection.messages c0 + 0) as Hsame.
    { intros H. exists c'. repeat split; try done; lia. }
    destruct (connections st !! (node_id, o)) as [c1|]; [|done].
    rewrite lookup_insert_ne; [done|]. intros [= -> ->]. by apply Hne.
Qed.

Lemma foldl_deliver_connection node_id c ts l st s d c' :
  NoDup l →
  connections (foldl (deliver time_time node_id c ts) st l) !! (s, d) = Some c' →
  ∃ c0, connections st !! (s, d) = Some c0
        ∧ Connection.source c' = Connection.source c0
        ∧ Connection.dest c' = Connection.dest c0
        ∧ Connection.messages c'
          = Connection.messages c0 + (if decide (s = node_id ∧ d ∈ l) then 1 else 0).
Proof.
  revert st. induction l as [|o l IH]; intros st Hd; simpl.
  - intros H. exists c'. rewrite decide_False by (intros [_ ?%elem_of_nil]; done).
    repeat split; try done; lia.
  - apply NoDup_cons in Hd as [Ho Hd]. intros H.
    destruct (IH _ Hd H) as (c1 & H1 & Hs1 & Hd1 & Hm1).
    destruct (deliver_connection _ _ _ _ _ _ _ _ H1) as (c0 & H0 & Hs0 & Hd0 & Hm0).
    exists c0. split; [done|]. split; [congruence|]. split; [congruence|].
    rewrite Hm1, Hm0.
    destruct (decide (s = node_id ∧ d = o)) as [[-> ->]|Hne1].
    + rewrite (decide_False (P := _ ∧ o ∈ l)) by (intros [_ ?]; done).
      rewrite decide_True; [lia|]. split; [done|by left].
    + destruct (decide (s = node_id ∧ d ∈ l)) as [[-> Hin]|Hne2].
      * rewrite decide_True; [lia|]. split; [done|by right].
      * rewrite decide_False; [lia|].
        intros [-> [->|?]%elem_of_cons]; [by apply Hne1|by apply Hne2].
Qed.

Lemma foldl_deliver_message node_id c ts l st m :
  m ∈ messages (foldl (deliver time_time node_id c ts) st l) →
  m ∈ messages st ∨ (Message.source m = node_id ∧ Message.dest m ∈ l).
Proof.
  revert st. induction l as [|o l IH]; intros st; simpl; [by left|].
  intros [H|[? ?]]%IH; [|right; split; [done|by right]].
  destruct (deliver_messages time_time node_id c ts st o) as [t Ht].
  rewrite Ht in H. apply elem_of_push_message in H as [->|H]; [|by left].
  right. split; [done|by left].
Qed.

Lemma linked_ok_process_line node_id st line :
  known st node_id → linked_ok st →
  linked_ok (process_line time_time strptime node_id st line).
Proof.
  intros Hk (Hc & Hm & Hd).
  assert (∀ id, known st id →
                known (process_line time_time strptime node_id st line) id) as Hkn
    by (intros id; apply known_process_line).
  assert (∀ id, sent_of st id
                ≤ sent_of (process_line time_time strptime node_id st line) id) as Hsn
    by (intros id; rewrite sent_of_process_line by done; lia).
  split; [|split].
  - intros s d c'. unfold process_line at 1.
    destruct (parse_line line) as [a|a|a ty|a msg|a msg|] eqn:Hl;
      try (intros H; destruct (Hc s d c' H) as (? & ? & ? & ? & ?);
           repeat split; auto; specialize (Hsn s); lia).
    + rewrite on_peer_connected_connections.
      intros [H|(o & Ho & [= -> ->] & ->)]%foldl_ensure_connection_inv.
      * destruct (Hc s d c' H) as (? & ? & ? & ? & ?).
        repeat split; auto. specialize (Hsn s); lia.
      * repeat split; simpl; auto; [|lia]. by apply Hkn, owners_known with a.
    + rewrite on_tunnel_created_connections.
      destruct (decide (s = node_id)) as [->|Hs].
      * rewrite foldl_set_tunnel_lookup.
        destruct (decide (d ∈ owners a (nodes st))) as [Hin|Hin].
        -- intros [= <-]. destruct (connections st !! (node_id, d)) as [c0|] eqn:H0.
           ++ destruct (Hc _ _ _ H0) as (? & ? & ? & ? & ?).
              repeat split; simpl; auto. specialize (Hsn node_id); lia.
           ++ repeat split; simpl; auto; [|lia]. by apply Hkn, owners_known with a.
        -- intros H. destruct (Hc _ _ _ H) as (? & ? & ? & ? & ?).
           repeat split; auto. specialize (Hsn node_id); lia.
      * rewrite foldl_set_tunnel_other by done.
        intros H. destruct (Hc _ _ _ H) as (? & ? & ? & ? & ?).
        repeat split; auto. specialize (Hsn s); lia.
    + unfold on_message_sent. cbn [nodes set_nodes].
      rewrite owners_alter_node by done. intros H.
      apply foldl_deliver_connection in H as (c0 & H0 & Hs0 & Hd0 & Hm0);
        [|by apply NoDup_owners].
      cbn [connections set_nodes] in H0.
      destruct (Hc _ _ _ H0) as (? & ? & ? & ? & Hle).
      repeat split; auto; try congruence.
      rewrite Hm0, sent_of_process_line, Hl by done. simpl.
      destruct (decide (s = node_id ∧ _)) as [[-> _]|_].
      * rewrite decide_True by done. lia.
      * lia.
  - intros m. unfold process_line at 1.
    destruct (parse_line line) as [a|a|a ty|a msg|a msg|] eqn:Hl;
      try (intros H; destruct (Hm m H); by split; apply Hkn).
    + rewrite (proj1 (on_peer_connected_messages _ _ _)).
      intros H; destruct (Hm m H); by split; apply Hkn.
    + rewrite (proj1 (on_tunnel_created_messages _ _ _ _)).
      intros H; destruct (Hm m H); by split; apply Hkn.
    + unfold on_message_sent. cbn [nodes set_nodes].
      rewrite owners_alter_node by done.
      intros [H|[-> Hin]]%foldl_deliver_message.
      * destruct (Hm m H); by split; apply Hkn.
      * split; apply Hkn; [done|]. by apply owners_known with a.
  - by rewrite process_line_nodes, alter_node_keys.
Qed.

Lemma linked_ok_foldl_process_line node_id lines st :
  known st node_id → linked_ok st →
  linked_ok (foldl (process_line time_time strptime node_id) st lines).
Proof.
  revert st. induction lines as [|l lines IH]; intros st Hk Hok; simpl; [done|].
  apply IH; [by apply known_process_line|by apply linked_ok_process_line].
Qed.

Lemma linked_ok_update_statuses st : linked_ok st → linked_ok (update_statuses time_time st).
Proof.
  intros (Hc & Hm & Hd).
  assert (∀ id, known st id → known (update_statuses time_time st) id) as Hkn.
  { intros id. unfold known. rewrite !lookup_node_keys. simpl.
    by rewrite update_all_keys. }
  split; [|split].
  - intros s d c H. simpl in H. destruct (Hc _ _ _ H) as (? & ? & ? & ? & ?).
    rewrite sent_of_update_statuses. repeat split; auto.
  - intros m H. simpl in H. destruct (Hm m H). split; by apply Hkn.
  - simpl. by rewrite update_all_keys.
Qed.

Lemma linked_ok_process_files listing st st' :
  linked_ok st → process_files time_time strptime listing st = Some st' → linked_ok st'.
Proof.
  revert st. induction listing as [|f listing IH]; intros st Hok; simpl.
  - by intros [= <-].
  - destruct (process_file time_time strptime f st) as [st1|] eqn:Hf; [|done].
    apply IH. unfold process_file in Hf.
    destruct (Str.endswith ".log" (filename f)); [|by injection Hf as <-].
    destruct (content f); [|done]. injection Hf as <-.
    apply linked_ok_foldl_process_line; [apply register_known|].
    by apply linked_ok_register.
Qed.

Lemma linked_ok_run passes st st' :
  linked_ok st → run time_time strptime passes st = Some st' → linked_ok st'.
Proof.
  revert st. induction passes as [|listing passes IH]; intros st Hok; simpl.
  - by intros [= <-].
  - unfold parse_logs.
    destruct (process_files time_time strptime listing st) as [st1|] eqn:Hf; [|done].
    apply IH, linked_ok_update_statuses. by eapply linked_ok_process_files.
Qed.

(** X8.  After any passes from the empty store, every connection is stored
    under its own source and destination, both of them are ids of the
    [nodes] dict, and so are the source and the destination of every
    message record: nothing the store holds refers to a node it lacks. *)
Theorem records_refer_to_known_nodes (passes : list (list LogFile)) (st : Store) :
  run time_time strptime passes initial = Some st →
  (∀ s d c, connections st !! (s, d) = Some c →
            Connection.source c = s ∧ Connection.dest c = d
            ∧ known st s ∧ known st d)
  ∧ (∀ m, m ∈ messages st → known st (Message.source m) ∧ known st (Message.dest m)).
Proof.
  intros H. destruct (linked_ok_run _ _ _ linked_ok_initial H) as (Hc & Hm & _).
  split; [|done]. intros s d c Hsd. destruct (Hc _ _ _ Hsd) as (? & ? & ? & ? & _).
  done.
Qed.

(** X9.  After any passes from the empty store, the message count of a
    connection is at most the [messages_sent] of its source node: a
    message-sent line adds one to the sender and at most one to each of its
    connections. *)
Theorem message_count_at_most_sent (passes : list (list LogFile)) (st : Store)
    (s d : string) (c : Connection.t) :
  run time_time strptime passes initial = Some st →
  connections st !! (s, d) = Some c →
  Connection.messages c ≤ sent_of st s.
Proof.
  intros H Hsd. destruct (linked_ok_run _ _ _ linked_ok_initial H) as (Hc & _ & _).
  by destruct (Hc _ _ _ Hsd) as (_ & _ & _ & _ & ?).
Qed.

End Linked.

(** * The line grammar *)

(** ** Strings *)

Lemma sapp_nil_l s : EmptyString +:+ s = s.
Proof. reflexivity. Qed.

Lemma sapp_cons c s t : String c s +:+ t = String c (s +:+ t).
Proof. reflexivity. Qed.

Lemma sapp_nil_r s : s +:+ EmptyString = s.
Proof. induction s as [|c s IH]; [done|]. by rewrite sapp_cons, IH. Qed.

Lemma sapp_assoc a b c : (a +:+ b) +:+ c = a +:+ (b +:+ c).
Proof. induction a as [|x a IH]; [done|]. by rewrite !sapp_cons, IH. Qed.

Lemma strip_prefix_app l x : Str.strip_prefix l (l +:+ x) = Some x.
Proof.
  induction l as [|c l IH]; [done|]. rewrite sapp_cons. simpl.
  by rewrite Ascii.eqb_refl.
Qed.

Lemma strip_prefix_Some l s r : Str.strip_prefix l s = Some r → s = l +:+ r.
Proof.
  revert s. induction l as [|a l IH]; intros s; simpl; [by intros [= ->]|].
  destruct s as [|b s]; [done|].
  destruct (Ascii.eqb a b) eqn:E; [|done]. apply Ascii.eqb_eq in E as ->.
  intros H. by rewrite sapp_cons, (IH _ H).
Qed.

Lemma one_line_app a b : one_line (a +:+ b) = one_line a && one_line b.
Proof.
  induction a as [|c a IH]; [done|]. rewrite sapp_cons. simpl.
  by rewrite IH, andb_assoc.
Qed.

Lemma take_line_app a post :
  one_line a = true → ends_line post = true → take_line (a +:+ post) = a.
Proof.
  intros Ha Hp. induction a as [|c a IH].
  - rewrite sapp_nil_l. destruct post as [|c post]; [done|].
    simpl in *. by destruct (dot c).
  - rewrite sapp_cons. simpl in *. apply andb_prop in Ha as [-> Ha]. by rewrite IH.
Qed.

Lemma rev_app_app s t : String.rev_app s t = String.rev s +:+ t.
Proof.
  unfold String.rev. revert t. induction s as [|a s IH]; intros t; simpl; [done|].
  by rewrite (IH (String a t)), (IH (String a EmptyString)), sapp_assoc.
Qed.

Lemma rev_cons c s : String.rev (String c s) = String.rev s +:+ String c EmptyString.
Proof. unfold String.rev at 1. simpl. apply rev_app_app. Qed.

Lemma one_line_take_line s : one_line (take_line s) = true.
Proof.
  induction s as [|c s IH]; simpl; [done|].
  destruct (dot c) eqn:E; simpl; by rewrite ?E.
Qed.

(** ** What a star captures *)

Lemma star_greedy_to_the_end acc s :
  star true true (λ _, Some []) acc s = Some [String.rev acc +:+ take_line s].
Proof.
  revert acc. induction s as [|c s IH]; intros acc; simpl.
  - by rewrite sapp_nil_r.
  - destruct (dot c); [|by rewrite sapp_nil_r].
    by rewrite IH, rev_cons, sapp_assoc.
Qed.

Lemma star_one_line g cap k acc s caps :
  (∀ t caps', k t = Some caps' → Forall (λ x, one_line x = true) caps') →
  one_line (String.rev acc) = true →
  star g cap k acc s = Some caps →
  Forall (λ x, one_line x = true) caps.
Proof.
  intros Hk. revert acc.
  assert (∀ acc r, one_line (String.rev acc) = true →
                   emit cap acc (k s) = Some r → Forall (λ x, one_line x = true) r)
    as Hstop_s.
  { intros acc r Hacc. unfold emit. destruct (k s) as [caps'|] eqn:Hks; [|done].
    intros [= <-]. specialize (Hk _ _ Hks). destruct cap; [by constructor|done]. }
  clear Hstop_s.
  induction s as [|c s IH]; intros acc Hacc; simpl.
  - unfold emit. destruct (k EmptyString) as [caps'|] eqn:Hks; [|done].
    intros [= <-]. specialize (Hk _ _ Hks). destruct cap; [by constructor|done].
  - assert (∀ r, emit cap acc (k (String c s)) = Some r →
                 Forall (λ x, one_line x = true) r) as Hstop.
    { intros r. unfold emit. destruct (k (String c s)) as [caps'|] eqn:Hks; [|done].
      intros [= <-]. specialize (Hk _ _ Hks). destruct cap; [by constructor|done]. }
    assert (dot c = true → one_line (String.rev (String c acc)) = true) as Hacc'.
    { intros Hc. rewrite rev_cons, one_line_app, Hacc. simpl. by rewrite Hc. }
    destruct (dot c) eqn:Hc; [|apply Hstop].
    destruct g.
    + destruct (star true cap k (String c acc) s) as [r|] eqn:Hdeep.
      * intros [= <-]. by eapply IH; [apply Hacc'|].
      * apply Hstop.
    + destruct (emit cap acc (k (String c s))) as [r|] eqn:He.
      * intros [= <-]. by apply Hstop.
      * by apply IH, Hacc'.
Qed.

Lemma match_here_one_line p s caps :
  match_here p s = Some caps → Forall (λ x, one_line x = true) caps.
Proof.
  revert s caps. induction p as [|[l|g cap] p IH]; intros s caps; simpl.
  - by intros [= <-].
  - destruct (Str.strip_prefix l s); [apply IH|done].
  - by apply star_one_line.
Qed.

Lemma search_one_line p s caps :
  search p s = Some caps → Forall (λ x, one_line x = true) caps.
Proof.
  induction s as [|c s IH]; simpl.
  - destruct (match_here p EmptyString) eqn:H; [|done]. intros [= <-].
    by eapply match_here_one_line.
  - destruct (match_here p (String c s)) eqn:H; [|apply IH]. intros [= <-].
    by eapply match_here_one_line.
Qed.

Lemma group_one_line i caps :
  Forall (λ x, one_line x = true) caps → one_line (group i caps) = true.
Proof.
  unfold group. generalize (i - 1). intros n H. revert n.
  induction H as [|x caps Hx _ IH]; intros [|n]; simpl; auto.
Qed.

(** X10.  No field that the line grammar captures contains a newline: an
    address, a tunnel type or a message content ends where its line ends,
    so the terminator of the line is never part of what is stored or
    compared. *)
Theorem captured_fields_are_one_line (line : string) :
  Forall (λ x, one_line x = true) (fields (parse_line line)).
Proof.
  unfold parse_line.
  repeat match goal with
         | |- context [search ?p line] =>
             let H := fresh "H" in
             destruct (search p line) eqn:H;
             [apply search_one_line in H|]
         end; simpl; repeat constructor; by apply group_one_line.
Qed.

(** ** The first occurrence of a literal *)

Lemma match_here_lit_star l s :
  match_here [Lit l; Star true true] s = (λ r, [take_line r]) <$> Str.strip_prefix l s.
Proof.
  simpl. destruct (Str.strip_prefix l s); [|done]. simpl.
  by rewrite star_greedy_to_the_end.
Qed.

Lemma search_lit_star l s :
  search [Lit l; Star true true] s = (λ r, [take_line r]) <$> after_first l s.
Proof.
  induction s as [|c s IH]; cbn [search after_first]; rewrite match_here_lit_star;
    destruct (Str.strip_prefix l _); try done.
Qed.

Lemma contains_after_first l s : Str.contains l s = true ↔ is_Some (after_first l s).
Proof.
  induction s as [|c s IH]; cbn [Str.contains after_first]; unfold Str.startswith;
    destruct (Str.strip_prefix l _); try done;
    split; try done; try (by eexists); try (by intros [? ?]).
Qed.

Lemma contains_false_startswith l s : Str.contains l s = false → Str.strip_prefix l s = None.
Proof.
  destruct s; cbn [Str.contains]; unfold Str.startswith;
    by destruct (Str.strip_prefix l _).
Qed.

Lemma contains_false_tail l c s : Str.contains l (String c s) = false → Str.contains l s = false.
Proof. cbn [Str.contains]. by destruct (Str.startswith l (String c s)). Qed.

Lemma search_lit_none l p s : Str.contains l s = false → search (Lit l :: p) s = None.
Proof.
  induction s as [|c s IH]; intros H; cbn [search match_here];
    rewrite (contains_false_startswith _ _ H); [done|].
  by apply IH, contains_false_tail with c.
Qed.

(** X11.  First match wins: a line is a node-initialized event exactly when
    it contains that literal, whatever else it contains, and a
    peer-connected event exactly when it contains that literal and not the
    node-initialized one.  So a sent message whose content quotes
    [Node initialized with overlay address: ] is read as an announcement of
    the sender's own address. *)
Theorem first_matching_grammar_decides (line : string) :
  ((∃ a, parse_line line = NodeInitialized a) ↔ Str.contains INIT line = true)
  ∧ ((∃ a, parse_line line = PeerConnected a)
     ↔ Str.contains INIT line = false ∧ Str.contains PEER line = true).
Proof.
  unfold parse_line, NODE_INITIALIZED_RE, PEER_CONNECTED_RE.
  rewrite !search_lit_star. fold INIT PEER.
  destruct (after_first INIT line) as [r|] eqn:Hi; simpl.
  - assert (Str.contains INIT line = true) as -> by (apply contains_after_first; eauto).
    split; [split; eauto|]. split; [by intros [? ?]|by intros [? _]].
  - assert (Str.contains INIT line = false) as ->.
    { apply not_true_is_false. intros [? H]%contains_after_first. congruence. }
    destruct (after_first PEER line) as [r|] eqn:Hp; simpl.
    + assert (Str.contains PEER line = true) as ->
        by (apply contains_after_first; eauto).
      split; [split; [by intros [? ?]|done]|split; eauto].
    + assert (Str.contains PEER line = false) as ->.
      { apply not_true_is_false. intros [? H]%contains_after_first. congruence. }
      repeat match goal with
             | |- context [search ?p line] => destruct (search p line)
             end;
        (split; [split; [by intros [? ?]|done]|split; [by intros [? ?]|by intros [_ ?]]]).
Qed.

(** ** Well-formed lines *)

Lemma char_in_app c a b : char_in c (a +:+ String c b) = true.
Proof.
  induction a as [|x a IH]; [|rewrite sapp_cons]; simpl.
  - by rewrite Ascii.eqb_refl.
  - by rewrite IH, orb_true_r.
Qed.

(** A literal that is found at the start of [pre +:+ y] ends inside [pre],
    or [pre] is a prefix of it and the rest of it starts [y]. *)
Lemma strip_prefix_split l pre y r :
  Str.strip_prefix l (pre +:+ y) = Some r →
  Str.startswith l pre = true
  ∨ ∃ l2, l = pre +:+ l2 ∧ Str.strip_prefix l2 y = Some r.
Proof.
  revert pre. induction l as [|a l IH]; intros pre; [by left|].
  destruct pre as [|b pre].
  - rewrite sapp_nil_l. intros H. right. by exists (String a l).
  - rewrite sapp_cons. unfold Str.startswith. simpl.
    destruct (Ascii.eqb a b) eqn:E; [|done]. apply Ascii.eqb_eq in E as ->.
    intros [H|(l2 & -> & H)]%IH; [by left|].
    right. exists l2. by rewrite sapp_cons.
Qed.

(** An unbordered literal does not start inside a text that precedes an
    occurrence of it, unless it occurs in that text. *)
Lemma no_straddle l c pre x :
  unbordered l = true → Str.startswith l (String c pre) = false →
  Str.strip_prefix l (String c pre +:+ l +:+ x) = None.
Proof.
  intros Hu Hs.
  destruct (Str.strip_prefix l (String c pre +:+ l +:+ x)) as [r|] eqn:H; [|done].
  apply strip_prefix_split in H as [H|(l2 & Hl & H2)]; [congruence|].
  exfalso. destruct l as [|c0 lt]; [done|]. simpl in Hu.
  rewrite sapp_cons in Hl. injection Hl as -> ->.
  destruct l2 as [|d l2].
  - rewrite sapp_nil_r in Hs. unfold Str.startswith in Hs.
    pose proof (strip_prefix_app (String c pre) EmptyString) as Hr.
    rewrite sapp_nil_r in Hr. by rewrite Hr in Hs.
  - rewrite sapp_cons in H2. simpl in H2.
    destruct (Ascii.eqb d c) eqn:E; [|done]. apply Ascii.eqb_eq in E as ->.
    by rewrite char_in_app in Hu.
Qed.

Lemma contains_cons_false l c s :
  Str.contains l (String c s) = false →
  Str.startswith l (String c s) = false ∧ Str.contains l s = false.
Proof. cbn [Str.contains]. by destruct (Str.startswith l (String c s)). Qed.

Lemma after_first_here l s r : Str.strip_prefix l s = Some r → after_first l s = Some r.
Proof. intros H. destruct s; simpl; by rewrite H. Qed.

Lemma after_first_skip l pre x :
  unbordered l = true → Str.contains l pre = false →
  after_first l (pre +:+ l +:+ x) = Some x.
Proof.
  intros Hu. induction pre as [|c pre IH]; intros Hc.
  - rewrite sapp_nil_l. apply after_first_here, strip_prefix_app.
  - apply contains_cons_false in Hc as [Hs Hc].
    rewrite sapp_cons. cbn [after_first]. rewrite <- sapp_cons.
    rewrite no_straddle by done. by apply IH.
Qed.

Lemma search_skip l p pre x :
  unbordered l = true → Str.contains l pre = false →
  search (Lit l :: p) (pre +:+ l +:+ x) = search (Lit l :: p) (l +:+ x).
Proof.
  intros Hu. induction pre as [|c pre IH]; intros Hc; [done|].
  apply contains_cons_false in Hc as [Hs Hc].
  rewrite sapp_cons. cbn [search match_here]. rewrite <- sapp_cons.
  rewrite no_straddle by done. by apply IH.
Qed.

Lemma search_at l p x r :
  match_here p x = Some r → search (Lit l :: p) (l +:+ x) = Some r.
Proof.
  intros H. destruct l as [|c l].
  - rewrite sapp_nil_l. destruct x; simpl; by rewrite H.
  - rewrite sapp_cons. cbn [search match_here]. rewrite <- sapp_cons.
    by rewrite strip_prefix_app, H.
Qed.

(** *** Greedy stars *)

Lemma strip_prefix_take_line l s r :
  one_line l = true → Str.strip_prefix l s = Some r →
  Str.startswith l (take_line s) = true.
Proof.
  unfold Str.startswith. revert s. induction l as [|a l IH]; intros s Hl; [done|].
  simpl in Hl. apply andb_prop in Hl as [Ha Hl].
  destruct s as [|b s]; simpl; [done|].
  destruct (Ascii.eqb a b) eqn:E; [|done]. apply Ascii.eqb_eq in E as <-.
  rewrite Ha. simpl. rewrite Ascii.eqb_refl. intros H.
  specialize (IH s Hl H). by destruct (Str.strip_prefix l (take_line s)).
Qed.

(** A star followed by a literal that does not occur in the rest of the
    line finds no match. *)
Lemma star_lit_none g cap l p acc s :
  one_line l = true → Str.contains l (take_line s) = false →
  star g cap (match_here (Lit l :: p)) acc s = None.
Proof.
  intros Hl. set (k := match_here (Lit l :: p)).
  assert (∀ t, Str.contains l (take_line t) = false → k t = None) as Hk.
  { intros t Hc. subst k. cbn [match_here].
    destruct (Str.strip_prefix l t) eqn:H; [|done].
    apply strip_prefix_take_line in H; [|done].
    apply contains_false_startswith in Hc. unfold Str.startswith in H.
    by rewrite Hc in H. }
  clearbody k. revert acc. induction s as [|c s IH]; intros acc Hc; cbn [star];
    rewrite (Hk _ Hc); unfold emit; [done|].
  destruct (dot c) eqn:Hd; [|done].
  rewrite IH; [by destruct g|].
  simpl in Hc. rewrite Hd in Hc. by apply contains_false_tail in Hc.
Qed.

(** A greedy star stops at the last place of the line where the rest of
    the pattern matches. *)
Lemma star_greedy_at cap k u v acc r :
  one_line u = true → k v = Some r →
  (∀ c v' acc', v = String c v' → dot c = true → star true cap k acc' v' = None) →
  star true cap k acc (u +:+ v)
  = Some (if cap then (String.rev acc +:+ u) :: r else r).
Proof.
  intros Hu Hk Hlater. revert acc. induction u as [|c u IH]; intros acc.
  - rewrite sapp_nil_l, sapp_nil_r. destruct v as [|c v']; simpl; rewrite Hk; [done|].
    destruct (dot c) eqn:Hd; [|done]. by rewrite (Hlater c v' _ eq_refl Hd).
  - simpl in Hu. apply andb_prop in Hu as [Hc Hu].
    rewrite sapp_cons. cbn [star]. rewrite Hc, (IH Hu).
    by rewrite rev_cons, sapp_assoc.
Qed.

(** the rest of a line after the first character of a literal that is
    followed by a one-line field and the end of the line *)
Lemma take_line_tail lt b post :
  one_line lt = true → one_line b = true → ends_line post = true →
  take_line (lt +:+ b +:+ post) = lt +:+ b.
Proof.
  intros Hl Hb Hp. rewrite <- sapp_assoc. apply take_line_app; [|done].
  by rewrite one_line_app, Hl, Hb.
Qed.

Lemma match_here_star g cap p s :
  match_here (Star g cap :: p) s = star g cap (match_here p) EmptyString s.
Proof. reflexivity. Qed.

Lemma match_here_lit l p s :
  match_here (Lit l :: p) s
  = match Str.strip_prefix l s with Some rest => match_here p rest | None => None end.
Proof. reflexivity. Qed.

(** *** One capture *)

Lemma search_one_capture l pre a post :
  unbordered l = true → Str.contains l pre = false →
  one_line a = true → ends_line post = true →
  search [Lit l; Star true true] (pre +:+ l +:+ a +:+ post) = Some [a].
Proof.
  intros Hu Hc Ha Hp. rewrite search_lit_star, after_first_skip by done.
  simpl. by rewrite take_line_app.
Qed.

(** X12.  A line that holds [Node initialized with overlay address: ]
    followed by an address and the end of the line is a node-initialized
    event with that address, whatever precedes the literal, if the literal
    does not occur before; the same holds for [Connected to peer: ] on a
    line without the node-initialized literal. *)
Theorem announcement_lines_parse (pre a post : string) :
  one_line a = true → ends_line post = true →
  (Str.contains INIT pre = false →
   parse_line (pre +:+ INIT +:+ a +:+ post) = NodeInitialized a)
  ∧ (Str.contains PEER pre = false →
     Str.contains INIT (pre +:+ PEER +:+ a +:+ post) = false →
     parse_line (pre +:+ PEER +:+ a +:+ post) = PeerConnected a).
Proof.
  intros Ha Hp. split.
  - intros Hc. unfold parse_line, NODE_INITIALIZED_RE. fold INIT.
    by rewrite search_one_capture.
  - intros Hc Hi. unfold parse_line, NODE_INITIALIZED_RE, PEER_CONNECTED_RE.
    fold INIT PEER. rewrite (search_lit_none INIT) by done.
    by rewrite search_one_capture.
Qed.

(** *** Two captures: the last separator of the line splits them *)

Lemma match_two_captures c2 lt2 a b post :
  one_line (String c2 lt2) = true →
  one_line a = true → one_line b = true → ends_line post = true →
  Str.contains (String c2 lt2) (lt2 +:+ b) = false →
  star true true (match_here [Lit (String c2 lt2); Star true true]) EmptyString
    (a +:+ String c2 lt2 +:+ b +:+ post)
  = Some [a; b].
Proof.
  intros Hl Ha Hb Hp Hc.
  rewrite (star_greedy_at true _ a _ EmptyString [b]); try done.
  - rewrite match_here_lit_star, strip_prefix_app. simpl. by rewrite take_line_app.
  - intros c v' acc'. rewrite sapp_cons. intros [= <- <-] Hd.
    apply star_lit_none; [done|].
    simpl in Hl. apply andb_prop in Hl as [_ Hl].
    by rewrite take_line_tail.
Qed.

Lemma search_two_captures l1 c2 lt2 pre a b post :
  unbordered l1 = true → Str.contains l1 pre = false →
  one_line (String c2 lt2) = true →
  one_line a = true → one_line b = true → ends_line post = true →
  Str.contains (String c2 lt2) (lt2 +:+ b) = false →
  search [Lit l1; Star true true; Lit (String c2 lt2); Star true true]
    (pre +:+ l1 +:+ a +:+ String c2 lt2 +:+ b +:+ post)
  = Some [a; b].
Proof.
  intros Hu Hc Hl Ha Hb Hp Hn. rewrite search_skip by done.
  apply search_at. rewrite match_here_star. by apply match_two_captures.
Qed.

(** X13.  A line that holds [Created tunnel to ], a destination, [ using ],
    a type and the end of the line is a tunnel-created event with that
    destination and type, provided the higher grammars do not match, the
    literal does not occur before, and [ using ] does not occur again from
    the type on.  The destination itself may contain [ using ]: the split
    is at the last [ using ] of the line. *)
Theorem tunnel_lines_parse (pre a ty post : string) :
  let line := pre +:+ TUNNEL +:+ a +:+ " using " +:+ ty +:+ post in
  one_line a = true → one_line ty = true → ends_line post = true →
  Str.contains INIT line = false → Str.contains PEER line = false →
  Str.contains TUNNEL pre = false →
  Str.contains " using " ("using " +:+ ty) = false →
  parse_line line = TunnelCreated a ty.
Proof.
  intros line Ha Hty Hp Hi Hpe Hc Hn. unfold parse_line.
  unfold NODE_INITIALIZED_RE, PEER_CONNECTED_RE, TUNNEL_CREATED_RE. fold INIT PEER TUNNEL.
  rewrite (search_lit_none INIT), (search_lit_none PEER) by done.
  unfold line. by rewrite (search_two_captures TUNNEL " "%char "using ").
Qed.

(** X14.  A line that holds [Received message from ], a source, [: ], a
    content and the end of the line is a message-received event with that
    source and content, provided the higher grammars do not match, the
    literal does not occur before, and the content does not contain [: ].
    The source may contain [: ]: the split is at the last one. *)
Theorem received_lines_parse (pre a c post : string) :
  let line := pre +:+ RECEIVED +:+ a +:+ ": " +:+ c +:+ post in
  one_line a = true → one_line c = true → ends_line post = true →
  Str.contains INIT line = false → Str.contains PEER line = false →
  Str.contains TUNNEL line = false → Str.contains SENDING line = false →
  Str.contains RECEIVED pre = false →
  Str.contains ": " c = false →
  parse_line line = MessageReceived a c.
Proof.
  intros line Ha Hc Hp Hi Hpe Ht Hs Hpre Hn. unfold parse_line.
  unfold NODE_INITIALIZED_RE, PEER_CONNECTED_RE, TUNNEL_CREATED_RE, MESSAGE_SENT_RE,
    MESSAGE_RECEIVED_RE.
  fold INIT PEER TUNNEL SENDING RECEIVED.
  rewrite (search_lit_none INIT), (search_lit_none PEER), (search_lit_none TUNNEL),
    (search_lit_none SENDING) by done.
  unfold line. by rewrite (search_two_captures RECEIVED ":"%char " ").
Qed.

(** X15.  A line that holds [Sending ], any text, [ to ], a destination,
    [: ], a content and the end of the line is a message-sent event with
    that destination and content, provided the higher grammars do not
    match, the literal does not occur before, [ to ] does not occur again
    from the destination on, and the content does not contain [: ].  The
    destination may contain [: ]: a content with [: ] in it loses its head
    to the destination. *)
Theorem sent_lines_parse (pre kind a c post : string) :
  let line := pre +:+ SENDING +:+ kind +:+ " to " +:+ a +:+ ": " +:+ c +:+ post in
  one_line kind = true → one_line a = true → one_line c = true →
  ends_line post = true →
  Str.contains INIT line = false → Str.contains PEER line = false →
  Str.contains TUNNEL line = false →
  Str.contains SENDING pre = false →
  Str.contains " to " ("to " +:+ a +:+ ": " +:+ c) = false →
  Str.contains ": " c = false →
  parse_line line = MessageSent a c.
Proof.
  intros line Hk Ha Hc Hp Hi Hpe Ht Hpre Hto Hn. unfold parse_line.
  unfold NODE_INITIALIZED_RE, PEER_CONNECTED_RE, TUNNEL_CREATED_RE, MESSAGE_SENT_RE.
  fold INIT PEER TUNNEL SENDING.
  rewrite (search_lit_none INIT), (search_lit_none PEER), (search_lit_none TUNNEL)
    by done.
  unfold line. rewrite search_skip by done.
  rewrite (search_at SENDING _ _ [a; c]); [done|]. rewrite match_here_star.
  rewrite (star_greedy_at false _ kind _ EmptyString [a; c]); try done.
  - rewrite match_here_lit, (strip_prefix_app " to "), match_here_star.
    by apply (match_two_captures ":"%char " ").
  - intros ch v' acc'. rewrite sapp_cons. intros [= <- <-] Hd.
    apply star_lit_none; [done|].
    assert ("to " +:+ a +:+ ": " +:+ c +:+ post
            = ("to " +:+ a +:+ ": " +:+ c) +:+ post) as ->
      by by rewrite !sapp_assoc.
    rewrite take_line_app; [done| |done].
    by rewrite !one_line_app, Ha, Hc.
Qed.

(** * From a log file name to a node id *)

Lemma rfind_from_absent c s i found :
  char_in c s = false → Str.rfind_from c s i found = found.
Proof.
  revert i found. induction s as [|b s IH]; intros i found; simpl; [done|].
  intros [Hb Hs]%orb_false_elim. rewrite Ascii.eqb_sym, Hb. by apply IH.
Qed.

Lemma rfind_from_last c a b i found :
  char_in c b = false →
  Str.rfind_from c (a +:+ String c b) i found = (i + Z.of_nat (String.length a))%Z.
Proof.
  intros Hb. revert i found. induction a as [|x a IH]; intros i found.
  - rewrite sapp_nil_l. simpl. rewrite Ascii.eqb_refl, rfind_from_absent by done. lia.
  - rewrite sapp_cons. cbn [Str.rfind_from String.length]. rewrite IH. lia.
Qed.

Lemma substring_all s : String.substring 0 (String.length s) s = s.
Proof. induction s as [|c s IH]; simpl; congruence. Qed.

Lemma substring_prefix a b : String.substring 0 (String.length a) (a +:+ b) = a.
Proof.
  induction a as [|c a IH]; [by destruct b|]. rewrite sapp_cons. simpl. by rewrite IH.
Qed.

Lemma length_sapp a b : String.length (a +:+ b) = String.length a + String.length b.
Proof. induction a as [|c a IH]; [done|]. rewrite sapp_cons. simpl. by rewrite IH. Qed.

Lemma get_after a c b : String.get (String.length a) (a +:+ String c b) = Some c.
Proof. induction a as [|x a IH]; [done|]. rewrite sapp_cons. simpl. apply IH. Qed.

Lemma has_non_dot_span pre id rest :
  OsPath.has_non_dot (pre +:+ id +:+ rest) (String.length pre) (String.length id)
  = negb (all_dots id).
Proof.
  revert pre. induction id as [|c id IH]; intros pre; [done|].
  cbn [String.length OsPath.has_non_dot all_dots]. rewrite sapp_cons, get_after.
  destruct (Ascii.eqb c ".") eqn:E; [|done]. simpl.
  specialize (IH (pre +:+ String c EmptyString)).
  rewrite length_sapp in IH. simpl in IH. rewrite Nat.add_1_r in IH.
  by rewrite sapp_assoc, sapp_cons, sapp_nil_l in IH.
Qed.

Lemma basename_plain p : char_in "/" p = false → OsPath.basename p = p.
Proof.
  intros H. unfold OsPath.basename, Str.rfind. rewrite rfind_from_absent by done.
  simpl. rewrite Nat.sub_0_r. apply substring_all.
Qed.

Lemma char_in_sapp c a b : char_in c (a +:+ b) = char_in c a || char_in c b.
Proof.
  induction a as [|x a IH]; [done|]. rewrite sapp_cons. simpl.
  by rewrite IH, orb_assoc.
Qed.

Lemma endswith_app suffix a : Str.endswith suffix (a +:+ suffix) = true.
Proof.
  induction a as [|c a IH].
  - rewrite sapp_nil_l. destruct suffix; simpl; by rewrite ?Ascii.eqb_refl, ?String.eqb_refl.
  - rewrite sapp_cons. cbn [Str.endswith]. rewrite IH. by destruct (String.eqb _ _).
Qed.

(** X16.  The log file that the simulator opens for a node, [<id>.log], is
    taken by the monitor as a log file, and the monitor reads the id back
    from its name when the id has no slash and is not made of dots only;
    for an id made of dots only (or empty) the monitor takes the whole
    file name, extension included, as the node id. *)
Theorem node_id_of_log_file_name (id : string) :
  char_in "/" id = false →
  Str.endswith ".log" (id +:+ ".log") = true
  ∧ parse_node_id_from_filename (id +:+ ".log")
    = if all_dots id then id +:+ ".log" else id.
Proof.
  intros Hs. split; [apply endswith_app|].
  unfold parse_node_id_from_filename.
  rewrite basename_plain by (by rewrite char_in_sapp, Hs).
  unfold OsPath.splitext, Str.rfind.
  rewrite (rfind_from_absent "/") by (by rewrite char_in_sapp, Hs).
  change (id +:+ ".log") with (id +:+ String "." "log") at 1 2.
  rewrite rfind_from_last by done.
  replace (-1 <? 0 + Z.of_nat (String.length id))%Z with true
    by (symmetry; apply Z.ltb_lt; lia).
  replace (Z.to_nat (-1 + 1)) with (String.length EmptyString) by done.
  replace (Z.to_nat (0 + Z.of_nat (String.length id) - (-1 + 1)))
    with (String.length id) by lia.
  pose proof (has_non_dot_span EmptyString id ".log") as Hn. rewrite sapp_nil_l in Hn.
  rewrite Hn. destruct (all_dots id); simpl; [done|].
  replace (Z.to_nat (0 + Z.of_nat (String.length id))) with (String.length id) by lia.
  apply substring_prefix.
Qed.

(** * Rendering *)

Lemma federation_labels (node_id : string) :
  parse_federation_from_node_id node_id
  ∈ [None; Some "federation-a"; Some "federation-b"; Some "federation-c";
     Some "federation-a+federation-b"; Some "federation-b+federation-c";
     Some "federation-a+federation-c"].
Proof.
  unfold parse_federation_from_node_id.
  repeat match goal with
         | |- context [if ?b then _ else _] => destruct b
         | |- context [match ?o with Some _ => _ | None => _ end] => destruct o
         end; set_solver.
Qed.

Section Rendering.

Variable time_time : nat → Q.
Variable strptime : string → option datetime.

(** X17.  For a node of any store the monitor can be in, choosing the
    colour of its federation raises exactly when the classifier finds no
    federation in its id; otherwise the colour pair is 4, 5 or 6.  The
    pair 7, meant for a node without federation, is never chosen. *)
Theorem federation_colour_of_a_node (st : Store) (id : string) (n : Node.t) :
  reachable time_time strptime st →
  lookup_node id (nodes st) = Some n →
  (Draw.fed_color (Node.federation n) = None
   ↔ parse_federation_from_node_id id = None)
  ∧ Draw.fed_color (Node.federation n) ∈ [None; Some 4; Some 5; Some 6].
Proof.
  intros Hr Hn.
  destruct (reachable_records time_time strptime st Hr) as [_ Hrec].
  destruct (Hrec id n Hn) as [_ ->].
  pose proof (federation_labels id) as Hl.
  repeat (apply elem_of_cons in Hl as [->|Hl]); [..|by apply elem_of_nil in Hl];
    (split; [done|]); vm_compute; set_solver.
Qed.

End Rendering.

Lemma len_take_chars k s : Str.len (Str.take_chars k s) = Nat.min k (Str.len s).
Proof.
  revert k. induction s as [|c s IH]; intros k; simpl; [by destruct k|].
  destruct (Str.is_cont c) eqn:Hc; simpl; [by rewrite Hc|].
  destruct k as [|k]; simpl; [done|]. by rewrite Hc, IH.
Qed.

Lemma take_chars_is_prefix k s : ∃ rest, s = Str.take_chars k s +:+ rest.
Proof.
  revert k. induction s as [|c s IH]; intros k; simpl; [by exists EmptyString|].
  destruct (Str.is_cont c).
  - destruct (IH k) as [rest Hr]. exists rest. by rewrite sapp_cons, <- Hr.
  - destruct k as [|k]; [by exists (String c s)|].
    destruct (IH k) as [rest Hr]. exists rest. by rewrite sapp_cons, <- Hr.
Qed.

Lemma len_sapp a b : Str.len (a +:+ b) = Str.len a + Str.len b.
Proof.
  induction a as [|c a IH]; [done|]. rewrite sapp_cons. simpl.
  destruct (Str.is_cont c); by rewrite IH.
Qed.

(** X18.  In a window at least 33 columns wide, the content of a message is
    written with at most [width - 30] characters: it is written as it is
    when it has no more, and otherwise as its first [width - 33]
    characters followed by three dots.  Characters are counted, not the
    bytes of their encoding. *)
Theorem shown_content_fits (width : Z) (content : string) :
  (33 ≤ width)%Z →
  Z.of_nat (Str.len (Draw.shown_content width content))
  = Z.min (Z.of_nat (Str.len content)) (width - 30)
  ∧ (Draw.shown_content width content = content
     ∨ ∃ head rest, content = head +:+ rest
         ∧ Z.of_nat (Str.len head) = (width - 33)%Z
         ∧ Draw.shown_content width content = head +:+ "...").
Proof.
  intros Hw. unfold Draw.shown_content.
  destruct (Z.ltb_spec (width - 30) (Z.of_nat (Str.len content))) as [Hlt|Hge].
  - unfold Draw.slice_to.
    destruct (Z.ltb_spec (width - 33) 0) as [?|_]; [lia|].
    set (k := Z.to_nat (Z.min (width - 33) (Z.of_nat (Str.len content)))).
    assert (Str.len (Str.take_chars k content) = Z.to_nat (width - 33)) as Hh.
    { rewrite len_take_chars. lia. }
    split.
    + rewrite len_sapp, Hh. simpl. lia.
    + right. destruct (take_chars_is_prefix k content) as [rest Hr].
      exists (Str.take_chars k content), rest. split; [done|]. split; [lia|done].
  - split; [lia|by left].
Qed.

(** * The simulator's registry *)

Lemma after_calls_snoc calls call :
  Sim.after_calls (calls ++ [call])
  = Sim.create_node call.1.1 call.1.2 call.2 (Sim.after_calls calls).
Proof. unfold Sim.after_calls. by rewrite foldl_app. Qed.

Lemma created_in_snoc f calls call :
  Sim.created_in f (calls ++ [call])
  = Sim.created_in f calls
    ++ (if decide (Sim.named call.1.2 = Some f) then [call.1.1] else []).
Proof.
  unfold Sim.created_in. rewrite omap_app. f_equal. simpl. by case_decide.
Qed.

Lemma sim_federations_after f calls :
  Sim.federations (Sim.after_calls calls) !! f
  = match Sim.created_in f calls with
    | [] => None
    | ids => Some ids
    end.
Proof.
  induction calls as [|call calls IH] using rev_ind; [done|].
  rewrite after_calls_snoc, created_in_snoc. unfold Sim.create_node. simpl.
  destruct (Sim.named call.1.2) as [g|] eqn:Hg.
  - destruct (decide (Some g = Some f)) as [[= ->]|Hne].
    + rewrite lookup_insert_eq, IH.
      by destruct (Sim.created_in f calls).
    + rewrite lookup_insert_ne by congruence. rewrite IH, app_nil_r. done.
  - rewrite decide_False by done. by rewrite IH, app_nil_r.
Qed.

Lemma sim_nodes_invariant calls id n :
  Sim.nodes (Sim.after_calls calls) !! id = Some n → Sim.node_id n = id.
Proof.
  revert n. induction calls as [|call calls IH] using rev_ind; intros n; [done|].
  rewrite after_calls_snoc. unfold Sim.create_node. simpl.
  destruct (decide (call.1.1 = id)) as [<-|Hne].
  - rewrite lookup_insert_eq. by intros [= <-].
  - rewrite lookup_insert_ne by done. apply IH.
Qed.

Lemma sim_created_are_nodes f calls id :
  id ∈ Sim.created_in f calls → is_Some (Sim.nodes (Sim.after_calls calls) !! id).
Proof.
  induction calls as [|call calls IH] using rev_ind; [by intros ?%elem_of_nil|].
  rewrite after_calls_snoc, created_in_snoc. unfold Sim.create_node. simpl.
  destruct (decide (call.1.1 = id)) as [<-|Hne].
  - intros _. rewrite lookup_insert_eq. by eexists.
  - rewrite lookup_insert_ne by done. intros [?|Hin]%elem_of_app; [auto|].
    case_decide; [|by apply elem_of_nil in Hin].
    by apply list_elem_of_singleton in Hin.
Qed.

(** X19.  After any sequence of [create_node] calls, [get_federation_nodes]
    does not raise: it returns the nodes registered under the ids that
    were created with that federation, one entry per call and in the order
    of the calls, so an id created twice is listed twice; each entry is the
    node now registered under its id. *)
Theorem federation_nodes_follow_the_calls
    (calls : list (string * option string * Z)) (f : string) :
  ∃ l, Sim.get_federation_nodes f (Sim.after_calls calls) = Some l
    ∧ Sim.node_id <$> l = Sim.created_in f calls
    ∧ ∀ n, n ∈ l → Sim.nodes (Sim.after_calls calls) !! Sim.node_id n = Some n.
Proof.
  unfold Sim.get_federation_nodes. rewrite sim_federations_after.
  pose proof (sim_created_are_nodes f calls) as Hin.
  pose proof (sim_nodes_invariant calls) as Hid.
  set (sim := Sim.after_calls calls) in *.
  assert (∃ l, mapM (λ id, Sim.nodes sim !! id) (Sim.created_in f calls) = Some l
            ∧ Sim.node_id <$> l = Sim.created_in f calls
            ∧ ∀ n, n ∈ l → Sim.nodes sim !! Sim.node_id n = Some n) as (l & Hl & Hids & Hreg).
  { destruct (mapM_is_Some_2 (λ id, Sim.nodes sim !! id) (Sim.created_in f calls))
      as [l Hl].
    { apply Forall_forall. intros id Hi. by apply Hin. }
    exists l. split; [done|]. split.
    - eapply mapM_fmap_Some_inv; [done|]. intros id n. apply Hid.
    - apply mapM_Some_1 in Hl. intros n Hn.
      apply list_elem_of_lookup_1 in Hn as [i Hi].
      destruct (Forall2_lookup_r _ _ _ _ _ Hl Hi) as (id & _ & Hm).
      by rewrite (Hid _ _ Hm). }
  destruct (Sim.created_in f calls) as [|id ids] eqn:Hc.
  - exists []. split; [done|]. split; [done|]. by intros n ?%elem_of_nil.
  - by exists l.
Qed.

(** X24.  After any sequence of [create_node] calls, the node registered
    under an id is the one that the last call with this id made, whatever
    federation the earlier calls gave it; and since no call sets an
    address, [get_node_address] returns [None] for every id, created or
    not, until a node is started. *)
Theorem registered_node_is_the_last_created
    (calls : list (string * option string * Z)) (id : string) :
  Sim.nodes (Sim.after_calls calls) !! id
  = (λ call, Sim.new_node id call.1.2 None call.2)
      <$> last (filter (λ call, call.1.1 = id) calls)
  ∧ Sim.get_node_address id (Sim.after_calls calls) = None.
Proof.
  assert (Sim.nodes (Sim.after_calls calls) !! id
          = (λ call, Sim.new_node id call.1.2 None call.2)
              <$> last (filter (λ call, call.1.1 = id) calls)) as H.
  { induction calls as [|call calls IH] using rev_ind; [done|].
    rewrite after_calls_snoc, filter_app. unfold Sim.create_node. simpl.
    destruct (decide (call.1.1 = id)) as [<-|Hne].
    - rewrite lookup_insert_eq, filter_cons_True, filter_nil by done.
      by rewrite last_snoc.
    - rewrite lookup_insert_ne, filter_cons_False by done.
      by rewrite filter_nil, app_nil_r. }
  split; [exact H|]. unfold Sim.get_node_address. rewrite H.
  by destruct (last _).
Qed.

(** * The address of a node, for the simulator and for the monitor *)

Lemma strip_prefix_line l t rest :
  one_line l = true →
  Str.strip_prefix l (t +:+ String Re.newline rest)
  = (λ r, r +:+ String Re.newline rest) <$> Str.strip_prefix l t.
Proof.
  revert t. induction l as [|a l IH]; intros t Hl; [done|].
  simpl in Hl. apply andb_prop in Hl as [Ha Hl]. destruct t as [|b t].
  - rewrite sapp_nil_l. simpl. unfold dot in Ha.
    by destruct (Ascii.eqb a Re.newline).
  - rewrite sapp_cons. simpl. destruct (Ascii.eqb a b); [by apply IH|done].
Qed.

Lemma take_line_newline r rest : take_line (r +:+ String Re.newline rest) = take_line r.
Proof.
  induction r as [|c r IH]; [done|]. rewrite sapp_cons. simpl. by rewrite IH.
Qed.

Lemma after_first_line l body rest :
  one_line l = true → l ≠ EmptyString →
  after_first l (body +:+ String Re.newline rest)
  = match after_first l body with
    | Some r => Some (r +:+ String Re.newline rest)
    | None => after_first l rest
    end.
Proof.
  intros Hl Hne. induction body as [|b body IH].
  - rewrite sapp_nil_l. cbn [after_first].
    pose proof (strip_prefix_line l EmptyString rest Hl) as H. rewrite sapp_nil_l in H.
    rewrite H. destruct l; [done|]. done.
  - rewrite sapp_cons. cbn [after_first]. rewrite <- sapp_cons.
    rewrite strip_prefix_line by done.
    by destruct (Str.strip_prefix l (String b body)).
Qed.

Lemma initialized_address_after_first s :
  Sim.initialized_address s = take_line <$> after_first INIT s.
Proof.
  unfold Sim.initialized_address, NODE_INITIALIZED_RE. fold INIT.
  rewrite search_lit_star. by destruct (after_first INIT s).
Qed.

Lemma parse_line_after_first line :
  match parse_line line with
  | NodeInitialized a => Some a
  | _ => None
  end = take_line <$> after_first INIT line.
Proof.
  unfold parse_line, NODE_INITIALIZED_RE. fold INIT. rewrite search_lit_star.
  destruct (after_first INIT line); simpl; [done|].
  by repeat destruct (search _ line).
Qed.

Lemma initialized_address_line line rest :
  terminated line →
  Sim.initialized_address (line +:+ rest)
  = match parse_line line with
    | NodeInitialized a => Some a
    | _ => Sim.initialized_address rest
    end.
Proof.
  intros (body & Hb & ->).
  assert (match parse_line (body +:+ String Re.newline EmptyString) with
          | NodeInitialized a => Some a
          | _ => Sim.initialized_address rest
          end
          = match match parse_line (body +:+ String Re.newline EmptyString) with
                  | NodeInitialized a => Some a
                  | _ => None
                  end with
            | Some a => Some a
            | None => Sim.initialized_address rest
            end) as -> by by destruct (parse_line _).
  rewrite parse_line_after_first, !initialized_address_after_first.
  rewrite sapp_assoc, sapp_cons, sapp_nil_l, !after_first_line by done.
  destruct (after_first INIT body) as [r|]; simpl; [|done].
  by rewrite !take_line_newline.
Qed.

Lemma announced_cons line lines :
  announced (line :: lines)
  = match parse_line line with
    | NodeInitialized a => a :: announced lines
    | _ => announced lines
    end.
Proof. unfold announced. csimpl. by destruct (parse_line line). Qed.

Lemma content_of_cons line lines : content_of (line :: lines) = line +:+ content_of lines.
Proof. reflexivity. Qed.

Lemma initialized_address_content lines :
  Forall terminated lines →
  Sim.initialized_address (content_of lines) = head (announced lines).
Proof.
  induction 1 as [|line lines Hl _ IH]; [done|].
  rewrite content_of_cons, initialized_address_line, announced_cons by done.
  by destruct (parse_line line).
Qed.

Section Addresses.

Variable time_time : nat → Q.
Variable strptime : string → option datetime.

Lemma address_after_line node_id st line :
  known st node_id →
  address_of (process_line time_time strptime node_id st line) node_id
  = match parse_line line with
    | NodeInitialized a => Some a
    | _ => address_of st node_id
    end.
Proof.
  intros [n Hn]. unfold address_of.
  rewrite process_line_nodes, lookup_alter_node_eq, Hn.
  by destruct (parse_line line).
Qed.

Lemma address_after_lines node_id lines st :
  known st node_id →
  address_of (foldl (process_line time_time strptime node_id) st lines) node_id
  = match last (announced lines) with
    | Some a => Some a
    | None => address_of st node_id
    end.
Proof.
  revert st. induction lines as [|line lines IH]; intros st Hk; [done|].
  cbn [foldl]. rewrite IH by by apply known_process_line.
  rewrite address_after_line, announced_cons by done.
  destruct (parse_line line); try done.
  rewrite last_cons. by destruct (last (announced lines)).
Qed.

(** X20.  Of a log whose lines each end in a newline, the simulator takes
    the address of the first node-initialized line as the address of the
    node, and the monitor, once it has read the log, holds the address of
    the last one: they agree when the log announces one address, and need
    not when it announces several. *)
Theorem simulator_reads_first_monitor_keeps_last (node_id : string) (st : Store)
    (lines : list string) :
  Forall terminated lines → known st node_id →
  Sim.initialized_address (content_of lines) = head (announced lines)
  ∧ address_of (foldl (process_line time_time strptime node_id) st lines) node_id
    = match last (announced lines) with
      | Some a => Some a
      | None => address_of st node_id
      end.
Proof.
  intros Ht Hk. split; [by apply initialized_address_content|].
  by apply address_after_lines.
Qed.

End Addresses.

Section Frames.

Variable time_time : nat → Q.
Variable strptime : string → option datetime.

(** * What a log file can change *)

Lemma foldl_deliver_other node_id c ts l st s d :
  s ≠ node_id →
  connections (foldl (deliver time_time node_id c ts) st l) !! (s, d)
  = connections st !! (s, d).
Proof.
  intros Hs. revert st. induction l as [|o l IH]; intros st; simpl; [done|].
  rewrite IH, deliver_connections.
  destruct (connections st !! (node_id, o)); [|done].
  rewrite lookup_insert_ne; congruence.
Qed.

Lemma process_line_frame node_id st line :
  let st' := process_line time_time strptime node_id st line in
  (∀ id, id ≠ node_id → lookup_node id (nodes st') = lookup_node id (nodes st))
  ∧ (∀ s d, s ≠ node_id → connections st' !! (s, d) = connections st !! (s, d))
  ∧ (∀ m, m ∈ messages st' → m ∈ messages st ∨ Message.source m = node_id).
Proof.
  simpl. split; [|split].
  - intros id Hid. by rewrite process_line_nodes, lookup_alter_node_ne.
  - intros s d Hs. unfold process_line.
    destruct (parse_line line); try done.
    + rewrite on_peer_connected_connections. by apply foldl_ensure_connection_other.
    + rewrite on_tunnel_created_connections. by apply foldl_set_tunnel_other.
    + unfold on_message_sent. by rewrite foldl_deliver_other.
  - intros m. unfold process_line.
    destruct (parse_line line); try (by left).
    + rewrite (proj1 (on_peer_connected_messages _ _ _)). by left.
    + rewrite (proj1 (on_tunnel_created_messages _ _ _ _)). by left.
    + unfold on_message_sent.
      intros [?|[? _]]%foldl_deliver_message; [by left|by right].
Qed.

Lemma foldl_process_line_frame node_id lines st :
  let st' := foldl (process_line time_time strptime node_id) st lines in
  (∀ id, id ≠ node_id → lookup_node id (nodes st') = lookup_node id (nodes st))
  ∧ (∀ s d, s ≠ node_id → connections st' !! (s, d) = connections st !! (s, d))
  ∧ (∀ m, m ∈ messages st' → m ∈ messages st ∨ Message.source m = node_id).
Proof.
  simpl. revert st. induction lines as [|l lines IH]; intros st; simpl.
  - split; [done|]. split; [done|]. by left.
  - destruct (IH (process_line time_time strptime node_id st l)) as (Hn & Hc & Hm).
    destruct (process_line_frame node_id st l) as (Hn' & Hc' & Hm').
    split; [|split].
    + intros id Hid. by rewrite Hn, Hn'.
    + intros s d Hs. by rewrite Hc, Hc'.
    + intros m [H|?]%Hm; [by apply Hm'|by right].
Qed.

(** X21.  Reading the log file of a node changes the record of no other
    node, no connection that starts at another node, and no message record
    that is already in the sequence unless it is pushed out: everything it
    adds starts at its own node. *)
Theorem a_log_changes_its_own_node_only (f : LogFile) (st st' : Store) :
  process_file time_time strptime f st = Some st' →
  let node_id := parse_node_id_from_filename (filename f) in
  (∀ id, id ≠ node_id → lookup_node id (nodes st') = lookup_node id (nodes st))
  ∧ (∀ s d, s ≠ node_id → connections st' !! (s, d) = connections st !! (s, d))
  ∧ (∀ m, m ∈ messages st' → m ∈ messages st ∨ Message.source m = node_id).
Proof.
  unfold process_file. simpl.
  destruct (Str.endswith ".log" (filename f));
    [|intros [= <-]; split; [done|]; split; [done|]; by left].
  destruct (content f) as [lines|]; [|done]. intros [= <-].
  destruct (foldl_process_line_frame (parse_node_id_from_filename (filename f))
              lines (register f st)) as (Hn & Hc & Hm).
  split; [|split].
  - intros id Hid. rewrite Hn, register_nodes by done. simpl.
    destruct (mtime f); rewrite ?lookup_alter_node_ne by done;
      rewrite lookup_ensure_node; destruct (lookup_node id (nodes st)); try done;
      by rewrite decide_False.
  - intros s d Hs. by rewrite Hc, (proj2 (register_messages f st)).
  - intros m Hin. rewrite <- (proj1 (register_messages f st)). by apply Hm.
Qed.

(** * The peer and tunnel sets *)

Section Gathered.

Variable p : Node.t → gset string.
Variable g : Event → gset string.
Hypothesis effect : ∀ ev n, p (node_effect ev n) = g ev ∪ p n.
Hypothesis fresh : ∀ id fed, p (Node.init id fed) = ∅.
Hypothesis seen : ∀ t n, p (Node.set_last_seen t n) = p n.
Hypothesis status : ∀ t n, p (Node.update_status t n) = p n.

Lemma set_of_process_line node_id st line id :
  known st node_id →
  set_of p (process_line time_time strptime node_id st line) id
  = set_of p st id ∪ (if decide (node_id = id) then g (parse_line line) else ∅).
Proof.
  intros [n Hn]. unfold set_of. rewrite process_line_nodes, lookup_alter_node.
  destruct (decide (node_id = id)) as [<-|]; [|set_solver].
  rewrite Hn. simpl. rewrite effect. set_solver.
Qed.

Lemma set_of_foldl_process_line node_id lines st id :
  known st node_id →
  set_of p (foldl (process_line time_time strptime node_id) st lines) id
  = set_of p st id
    ∪ (if decide (node_id = id) then ⋃ ((λ line, g (parse_line line)) <$> lines) else ∅).
Proof.
  revert st. induction lines as [|l lines IH]; intros st Hk; csimpl.
  - destruct (decide (node_id = id)); set_solver.
  - rewrite IH by by apply known_process_line.
    rewrite set_of_process_line by done.
    destruct (decide (node_id = id)); set_solver.
Qed.

Lemma set_of_register f st id : set_of p (register f st) id = set_of p st id.
Proof.
  unfold set_of. rewrite register_nodes. simpl.
  set (nid := parse_node_id_from_filename (filename f)).
  assert (from_option p ∅
            (lookup_node id (ensure_node nid
               (Node.init nid (parse_federation_from_node_id nid)) (nodes st)))
          = from_option p ∅ (lookup_node id (nodes st))) as He.
  { rewrite lookup_ensure_node. destruct (lookup_node id (nodes st)); [done|].
    destruct (decide (nid = id)); simpl; by rewrite ?fresh. }
  destruct (mtime f); [|done].
  rewrite lookup_alter_node. destruct (decide (nid = id)); [|done].
  rewrite <- He. destruct (lookup_node id _); simpl; by rewrite ?seen.
Qed.

Lemma set_of_process_files listing st st' id :
  process_files time_time strptime listing st = Some st' →
  set_of p st' id = set_of p st id ∪ gathered g id listing.
Proof.
  revert st. induction listing as [|f listing IH]; intros st.
  - intros [= <-]. unfold gathered. set_solver.
  - cbn [process_files].
    destruct (process_file time_time strptime f st) as [st1|] eqn:Hf; [|done].
    intros Hrest. rewrite (IH _ Hrest).
    assert (set_of p st1 id
            = set_of p st id
              ∪ (if decide (is_log f ∧ parse_node_id_from_filename (filename f) = id)
                 then ⋃ ((λ line, g (parse_line line)) <$> default [] (content f))
                 else ∅)) as ->.
    { unfold process_file in Hf. unfold is_log.
      destruct (Str.endswith ".log" (filename f)) eqn:He.
      - destruct (content f) as [lines|]; [|done]. injection Hf as <-.
        rewrite set_of_foldl_process_line by apply register_known.
        rewrite set_of_register. simpl.
        destruct (decide (parse_node_id_from_filename (filename f) = id)).
        + by rewrite decide_True.
        + rewrite decide_False; [done|]. by intros [_ ?].
      - injection Hf as <-. rewrite decide_False; [set_solver|]. by intros [? _]. }
    unfold gathered. csimpl. set_solver.
Qed.

Lemma set_of_parse_logs listing st st' id :
  parse_logs time_time strptime listing st = Some st' →
  set_of p st' id = set_of p st id ∪ gathered g id listing.
Proof.
  unfold parse_logs.
  destruct (process_files time_time strptime listing st) as [st1|] eqn:Hf; [|done].
  intros [= <-]. rewrite <- (set_of_process_files _ _ _ _ Hf).
  unfold set_of. simpl.
  destruct (lookup_update_all time_time id (nodes st1) (clock st1)) as [t ->].
  destruct (lookup_node id (nodes st1)); simpl; by rewrite ?status.
Qed.

End Gathered.

(** X22.  After a pass the peer set of a node is the set it had together
    with the addresses of all peer-connected lines of its log files, and
    its tunnel set the set it had together with the destinations of all
    tunnel-created lines: a line read again adds nothing new, and no line
    and no missing log ever takes an address out. *)
Theorem peer_and_tunnel_sets_gather (listing : list LogFile) (st st' : Store)
    (id : string) :
  parse_logs time_time strptime listing st = Some st' →
  peers_of st' id = peers_of st id ∪ gathered peer_of_event id listing
  ∧ tunnels_of st' id = tunnels_of st id ∪ gathered tunnel_of_event id listing.
Proof.
  intros H. split.
  - apply (set_of_parse_logs Node.peers peer_of_event); try done.
    + intros [] n; simpl; set_solver.
    + intros. apply update_status_fields.
  - apply (set_of_parse_logs Node.tunnels tunnel_of_event); try done.
    + intros [] n; simpl; set_solver.
    + intros. apply update_status_fields.
Qed.

(** * Connections that have carried no message *)

Lemma reachable_unused_ok st : reachable time_time strptime st → unused_ok (connections st).
Proof.
  induction 1 as [|f st _ IH|node_id st line _ IH|st _ IH]; try done.
  - by rewrite (proj2 (register_messages f st)).
  - unfold process_line. destruct (parse_line line) as [a|a|a ty|a msg|a msg|]; try done.
    + rewrite on_peer_connected_connections. intros k c.
      intros [H|(o & _ & _ & ->)]%foldl_ensure_connection_inv; [by eapply IH|done].
    + rewrite on_tunnel_created_connections. intros [s d] c.
      destruct (decide (s = node_id)) as [->|Hs].
      * rewrite foldl_set_tunnel_lookup. case_decide; [|by eapply IH].
        intros [= <-]. destruct (connections st !! (node_id, d)) eqn:Hc; simpl; [|done].
        by eapply IH.
      * rewrite foldl_set_tunnel_other by done. by eapply IH.
    + unfold on_message_sent.
      assert (∀ l s, unused_ok (connections s) →
                unused_ok (connections (foldl (deliver time_time node_id msg
                                                 (parse_timestamp strptime line)) s l)))
        as Hfold.
      { induction l as [|o l IHl]; intros s Hs; simpl; [done|].
        apply IHl. rewrite deliver_connections.
        destruct (connections s !! (node_id, o)) as [c1|]; [|done].
        intros k c. destruct (decide (k = (node_id, o))) as [->|Hk].
        - rewrite lookup_insert_eq. by intros [= <-].
        - rewrite lookup_insert_ne by done. by eapply Hs. }
      by apply Hfold.
Qed.

(** X23.  In every store the monitor can be in, a connection that has
    counted no message has never had its [last_message] set, so from the
    sixtieth second of the clock on it is not listed among the active
    connections: a connection known from peer-connected or tunnel-created
    lines alone is never displayed. *)
Theorem unused_connections_are_not_listed (st : Store) (k : string * string)
    (c : Connection.t) (now : Q) :
  reachable time_time strptime st →
  connections st !! k = Some c →
  Connection.messages c = 0 →
  (60 <= now)%Q →
  Connection.last_message c = 0%Q ∧ Draw.is_active now c = false.
Proof.
  intros Hr Hk Hm Hnow.
  pose proof (reachable_unused_ok st Hr k c Hk Hm) as Hl.
  split; [done|]. unfold Draw.is_active. rewrite Hl.
  destruct (Qlt_le_dec (now - 60) 0); [|done]. exfalso. lra.
Qed.

End Frames.

(** * The timestamp of a line *)

Lemma lazy_star_to_bracket acc inner tail :
  one_line inner = true → char_in "]" inner = false →
  star false true (match_here [Lit "]"]) acc (inner +:+ "]" +:+ tail)
  = Some [String.rev acc +:+ inner].
Proof.
  revert acc. induction inner as [|c inner IH]; intros acc Hl Hb.
  - rewrite sapp_nil_l, sapp_nil_r. reflexivity.
  - simpl in Hl, Hb. apply andb_prop in Hl as [Hc Hl].
    apply orb_false_elim in Hb as [Hcb Hb].
    rewrite sapp_cons. simpl. rewrite Hc, Hcb. simpl.
    rewrite (IH _ Hl Hb), rev_cons, sapp_assoc. reflexivity.
Qed.

Section Timestamps.

Variable strptime : string → option datetime.

(** X25.  The timestamp of a line that starts with a bracketed text is what
    [strptime] makes of the first word between the brackets, a word ending
    at the first white-space character, ASCII or not: the time of day
    after the date is dropped, and brackets that hold nothing but white
    space give no timestamp.  A line that does not start with [[] has no
    timestamp, wherever else it holds a bracketed date. *)
Theorem timestamp_is_the_first_bracketed_word (line inner tail : string) :
  (Str.startswith "[" line = false → parse_timestamp strptime line = None)
  ∧ (one_line inner = true → char_in "]" inner = false →
     parse_timestamp strptime ("[" +:+ inner +:+ "]" +:+ tail)
     = Str.first_word inner ≫= strptime).
Proof.
  split.
  - unfold Str.startswith, parse_timestamp, TIMESTAMP_RE. cbn [match_here].
    by destruct (Str.strip_prefix "[" line).
  - intros Hl Hb. unfold parse_timestamp, TIMESTAMP_RE.
    rewrite sapp_cons, sapp_nil_l, match_here_lit. cbn [Str.strip_prefix].
    rewrite Ascii.eqb_refl, match_here_star, (lazy_star_to_bracket EmptyString inner tail Hl Hb).
    change (String.rev EmptyString) with EmptyString. rewrite sapp_nil_l. cbn [group].
    unfold group. simpl nth. destruct (Str.first_word inner); reflexivity.
Qed.

End Timestamps.

(** ** Further concrete runs *)

Lemma parse_logs_connected_listing :
  parse_logs clock0 no_date connected_listing initial = Some after_one_pass.
Proof. vm_compute; reflexivity. Qed.

Lemma reachable_after_one_pass : reachable clock0 no_date after_one_pass.
Proof.
  apply (reachable_parse_logs clock0 no_date connected_listing initial).
  - apply reachable_initial.
  - exact parse_logs_connected_listing.
Qed.

Lemma run_two_passes :
  run clock0 no_date [connected_listing; connected_listing] initial
  = Some after_two_passes.
Proof. vm_compute; reflexivity. Qed.

(** X3 on the first pass of the scenario: the two ids are new. *)
Lemma nodes_only_grow_witness :
  parse_logs clock0 no_date connected_listing initial = Some after_one_pass
  ∧ ∃ new, (nodes after_one_pass).*1 = (nodes initial).*1 ++ new
      ∧ ∀ id, id ∈ new ↔ ¬ known initial id ∧ id ∈ log_ids connected_listing.
Proof.
  split; [exact parse_logs_connected_listing|].
  apply (nodes_only_grow clock0 no_date connected_listing initial after_one_pass).
  exact parse_logs_connected_listing.
Defined.

(** X4 at the store the scenario leaves. *)
Lemma node_records_are_consistent_witness :
  reachable clock0 no_date after_one_pass
  ∧ NoDup (nodes after_one_pass).*1
  ∧ ∀ id n, lookup_node id (nodes after_one_pass) = Some n →
            Node.node_id n = id
            ∧ Node.federation n = parse_federation_from_node_id id.
Proof.
  split; [exact reachable_after_one_pass|].
  apply (node_records_are_consistent clock0 no_date after_one_pass).
  exact reachable_after_one_pass.
Defined.

(** X5 at node A after the first pass of the scenario. *)
Lemma no_status_unknown_after_a_pass_witness :
  parse_logs clock0 no_date connected_listing initial = Some after_one_pass
  ∧ lookup_node "A" (nodes after_one_pass) = Some (node_A after_one_pass)
  ∧ Node.status (node_A after_one_pass) ≠ Unknown
  ∧ ∃ i, clock initial ≤ i < clock after_one_pass
      ∧ Node.status (node_A after_one_pass)
        = classify (clock0 i - Node.last_seen (node_A after_one_pass)).
Proof.
  assert (lookup_node "A" (nodes after_one_pass) = Some (node_A after_one_pass)) as Hn
    by (vm_compute; reflexivity).
  split; [exact parse_logs_connected_listing|]. split; [exact Hn|].
  apply (no_status_unknown_after_a_pass clock0 no_date connected_listing initial
           after_one_pass "A" (node_A after_one_pass)
           parse_logs_connected_listing Hn).
Defined.

(** X6 on a pass over the scenario with modification times 5 and 7. *)
Lemma last_seen_is_the_latest_mtime_witness :
  parse_logs clock0 no_date timed_listing initial = Some after_timed_pass
  ∧ latest_mtime "A" timed_listing = Some 7%Q
  ∧ last_seen_of after_timed_pass "A"
    = default (last_seen_of initial "A") (latest_mtime "A" timed_listing).
Proof.
  assert (parse_logs clock0 no_date timed_listing initial = Some after_timed_pass) as E
    by (vm_compute; reflexivity).
  split; [exact E|]. split; [vm_compute; reflexivity|].
  apply (last_seen_is_the_latest_mtime clock0 no_date timed_listing initial
           after_timed_pass "A" E).
Defined.

(** X7 on a tunnel line of node A, read after the first pass. *)
Lemma tunnel_created_sets_the_type_witness :
  let line := ln "Created tunnel to addr-B using wireguard" in
  let st' := process_line clock0 no_date "A" after_one_pass line in
  known after_one_pass "A"
  ∧ parse_line line = TunnelCreated "addr-B" "wireguard"
  ∧ tunnels_of st' "A" = {["addr-B"]} ∪ tunnels_of after_one_pass "A"
  ∧ (∀ o, o ∈ owners "addr-B" (nodes after_one_pass) →
          connections st' !! ("A", o)
          = Some (Connection.set_tunnel_type "wireguard"
                    (default (Connection.init "A" o)
                       (connections after_one_pass !! ("A", o)))))
  ∧ (∀ s d, ¬ (s = "A" ∧ d ∈ owners "addr-B" (nodes after_one_pass)) →
            connections st' !! (s, d) = connections after_one_pass !! (s, d)).
Proof.
  intros line st'.
  assert (known after_one_pass "A") as Hk by (vm_compute; eexists; reflexivity).
  assert (parse_line line = TunnelCreated "addr-B" "wireguard") as Hl
    by (vm_compute; reflexivity).
  split; [exact Hk|]. split; [exact Hl|].
  apply (tunnel_created_sets_the_type clock0 no_date "A" after_one_pass line
           "addr-B" "wireguard" Hk Hl).
Defined.

(** X8 after two passes of the scenario. *)
Lemma records_refer_to_known_nodes_witness :
  run clock0 no_date [connected_listing; connected_listing] initial
  = Some after_two_passes
  ∧ (∀ s d c, connections after_two_passes !! (s, d) = Some c →
              Connection.source c = s ∧ Connection.dest c = d
              ∧ known after_two_passes s ∧ known after_two_passes d)
  ∧ (∀ m, m ∈ messages after_two_passes →
          known after_two_passes (Message.source m)
          ∧ known after_two_passes (Message.dest m)).
Proof.
  split; [exact run_two_passes|].
  apply (records_refer_to_known_nodes clock0 no_date
           [connected_listing; connected_listing] after_two_passes).
  exact run_two_passes.
Defined.

(** X9 at the connection (A, B) after two passes of the scenario. *)
Lemma message_count_at_most_sent_witness :
  run clock0 no_date [connected_listing; connected_listing] initial
  = Some after_two_passes
  ∧ connections after_two_passes !! ("A", "B") = Some (connection_A_B after_two_passes)
  ∧ Connection.messages (connection_A_B after_two_passes) ≤ sent_of after_two_passes "A".
Proof.
  assert (connections after_two_passes !! ("A", "B")
          = Some (connection_A_B after_two_passes)) as Hc by (vm_compute; reflexivity).
  split; [exact run_two_passes|]. split; [exact Hc|].
  apply (message_count_at_most_sent clock0 no_date
           [connected_listing; connected_listing] after_two_passes "A" "B"
           (connection_A_B after_two_passes) run_two_passes Hc).
Defined.

(** X12 on a node-initialized line and a peer-connected line with a
    timestamp before the literal. *)
Lemma announcement_lines_parse_witness :
  parse_line ("[2024-01-01 10:00:00] INFO " +:+ INIT +:+ "fd00::1" +:+ ln EmptyString)
  = NodeInitialized "fd00::1"
  ∧ parse_line ("[2024-01-01 10:00:00] INFO " +:+ PEER +:+ "fd00::2" +:+ ln EmptyString)
    = PeerConnected "fd00::2".
Proof.
  split.
  - apply (announcement_lines_parse "[2024-01-01 10:00:00] INFO " "fd00::1" (ln EmptyString));
      reflexivity.
  - apply (announcement_lines_parse "[2024-01-01 10:00:00] INFO " "fd00::2" (ln EmptyString));
      reflexivity.
Defined.

(** X13 on a tunnel line. *)
Lemma tunnel_lines_parse_witness :
  parse_line ("INFO " +:+ TUNNEL +:+ "fd00::2" +:+ " using " +:+ "wireguard" +:+ ln EmptyString)
  = TunnelCreated "fd00::2" "wireguard".
Proof.
  apply (tunnel_lines_parse "INFO " "fd00::2" "wireguard" (ln EmptyString)); reflexivity.
Defined.

(** X14 on a message-received line. *)
Lemma received_lines_parse_witness :
  parse_line ("INFO " +:+ RECEIVED +:+ "fd00::2" +:+ ": " +:+ "hello" +:+ ln EmptyString)
  = MessageReceived "fd00::2" "hello".
Proof.
  apply (received_lines_parse "INFO " "fd00::2" "hello" (ln EmptyString)); reflexivity.
Defined.

(** X15 on a message-sent line. *)
Lemma sent_lines_parse_witness :
  parse_line ("INFO " +:+ SENDING +:+ "ping" +:+ " to " +:+ "fd00::2" +:+ ": "
              +:+ "hello" +:+ ln EmptyString)
  = MessageSent "fd00::2" "hello".
Proof.
  apply (sent_lines_parse "INFO " "ping" "fd00::2" "hello" (ln EmptyString)); reflexivity.
Defined.

(** X16 on a node id of the scenarios and on the id made of two dots. *)
Lemma node_id_of_log_file_name_witness :
  parse_node_id_from_filename ("federation-a-node-1" +:+ ".log") = "federation-a-node-1"
  ∧ parse_node_id_from_filename (".." +:+ ".log") = "...log".
Proof.
  split.
  - apply (node_id_of_log_file_name "federation-a-node-1"). reflexivity.
  - apply (node_id_of_log_file_name ".."). reflexivity.
Defined.

(** X17 at node A of the scenario, whose id names no federation. *)
Lemma federation_colour_of_a_node_witness :
  reachable clock0 no_date after_one_pass
  ∧ lookup_node "A" (nodes after_one_pass) = Some (node_A after_one_pass)
  ∧ Draw.fed_color (Node.federation (node_A after_one_pass)) = None.
Proof.
  assert (lookup_node "A" (nodes after_one_pass) = Some (node_A after_one_pass)) as Hn
    by (vm_compute; reflexivity).
  split; [exact reachable_after_one_pass|]. split; [exact Hn|].
  apply (federation_colour_of_a_node clock0 no_date after_one_pass "A"
           (node_A after_one_pass) reachable_after_one_pass Hn).
  reflexivity.
Defined.

(** X18 in a window of 40 columns, on a content of twelve characters and on
    one of ten characters of three bytes each. *)
Lemma shown_content_fits_witness :
  (33 ≤ 40)%Z
  ∧ Z.of_nat (Str.len (Draw.shown_content 40 "hello, world"))
    = Z.min (Z.of_nat (Str.len "hello, world")) (40 - 30)
  ∧ Draw.shown_content 40 "hello, world" = "hello, ..."
  ∧ Draw.shown_content 40 cjk_content = cjk_content.
Proof.
  assert (33 ≤ 40)%Z as H by lia.
  split; [exact H|]. split; [apply (shown_content_fits 40 "hello, world" H)|].
  split; reflexivity.
Defined.

(** X20 on the two lines of [N.log]. *)
Lemma simulator_reads_first_monitor_keeps_last_witness :
  let lines := [ln "Node initialized with overlay address: addr-1";
                ln "Node initialized with overlay address: addr-2"] in
  let st := register N_log initial in
  Forall terminated lines
  ∧ known st "N"
  ∧ announced lines = ["addr-1"; "addr-2"]
  ∧ Sim.initialized_address (content_of lines) = head (announced lines)
  ∧ address_of (foldl (process_line clock0 no_date "N") st lines) "N"
    = match last (announced lines) with
      | Some a => Some a
      | None => address_of st "N"
      end.
Proof.
  intros lines st.
  assert (Forall terminated lines) as Ht.
  { repeat constructor; eexists; (split; [|reflexivity]); reflexivity. }
  assert (known st "N") as Hk by (vm_compute; eexists; reflexivity).
  split; [exact Ht|]. split; [exact Hk|]. split; [vm_compute; reflexivity|].
  apply (simulator_reads_first_monitor_keeps_last clock0 no_date "N" st lines Ht Hk).
Defined.

(** X21 on [A.log] read once more after the first pass. *)
Lemma a_log_changes_its_own_node_only_witness :
  process_file clock0 no_date (A_log_connected None) after_one_pass = Some after_A_again
  ∧ lookup_node "B" (nodes after_A_again) = lookup_node "B" (nodes after_one_pass)
  ∧ sent_of after_A_again "A" = 2.
Proof.
  assert (process_file clock0 no_date (A_log_connected None) after_one_pass
          = Some after_A_again) as E by (vm_compute; reflexivity).
  split; [exact E|]. split; [|vm_compute; reflexivity].
  destruct (a_log_changes_its_own_node_only clock0 no_date (A_log_connected None)
              after_one_pass after_A_again E) as (Hn & _ & _).
  apply Hn. vm_compute. discriminate.
Defined.

(** X22 at node A on the first pass of the scenario. *)
Lemma peer_and_tunnel_sets_gather_witness :
  parse_logs clock0 no_date connected_listing initial = Some after_one_pass
  ∧ peers_of after_one_pass "A"
    = peers_of initial "A" ∪ gathered peer_of_event "A" connected_listing
  ∧ tunnels_of after_one_pass "A"
    = tunnels_of initial "A" ∪ gathered tunnel_of_event "A" connected_listing.
Proof.
  split; [exact parse_logs_connected_listing|].
  apply (peer_and_tunnel_sets_gather clock0 no_date connected_listing initial
           after_one_pass "A" parse_logs_connected_listing).
Defined.

(** X23 at the connection (A, B) that the second pass over
    [warm_up_listing] creates from a peer-connected line. *)
Lemma unused_connections_are_not_listed_witness :
  reachable clock0 no_date after_second_warm_up
  ∧ connections after_second_warm_up !! ("A", "B")
    = Some (connection_A_B after_second_warm_up)
  ∧ Connection.messages (connection_A_B after_second_warm_up) = 0
  ∧ Draw.is_active 60 (connection_A_B after_second_warm_up) = false.
Proof.
  assert (reachable clock0 no_date after_second_warm_up) as Hr.
  { apply (reachable_parse_logs clock0 no_date warm_up_listing after_warm_up).
    - apply (reachable_parse_logs clock0 no_date warm_up_listing initial).
      + apply reachable_initial.
      + vm_compute; reflexivity.
    - vm_compute; reflexivity. }
  assert (connections after_second_warm_up !! ("A", "B")
          = Some (connection_A_B after_second_warm_up)) as Hc by (vm_compute; reflexivity).
  assert (Connection.messages (connection_A_B after_second_warm_up) = 0) as Hm
    by (vm_compute; reflexivity).
  assert (60 <= 60)%Q as Hq by (unfold Qle; simpl; lia).
  split; [exact Hr|]. split; [exact Hc|]. split; [exact Hm|].
  apply (unused_connections_are_not_listed clock0 no_date after_second_warm_up
           ("A", "B") (connection_A_B after_second_warm_up) 60 Hr Hc Hm Hq).
Defined.

(** X25 on a line without a bracket at its start, on a line that starts
    with a date and a time of day in brackets, and on one where an em space
    follows the date. *)
Lemma timestamp_is_the_first_bracketed_word_witness :
  parse_timestamp new_year (ln "INFO [2024-01-01] started") = None
  ∧ parse_timestamp new_year ("[" +:+ "2024-01-01 10:00:00" +:+ "]" +:+ ln " INFO started")
    = Some {| year := 2024; month := 1; day := 1 |}
  ∧ parse_timestamp new_year ("[" +:+ ("2024-01-01" +:+ em_space +:+ "x") +:+ "]" +:+ ln " up")
    = Some {| year := 2024; month := 1; day := 1 |}.
Proof.
  destruct (timestamp_is_the_first_bracketed_word new_year
              (ln "INFO [2024-01-01] started") "2024-01-01 10:00:00"
              (ln " INFO started")) as [H1 H2].
  destruct (timestamp_is_the_first_bracketed_word new_year
              EmptyString ("2024-01-01" +:+ em_space +:+ "x") (ln " up")) as [_ H3].
  split; [|split].
  - apply H1. reflexivity.
  - rewrite H2 by reflexivity. reflexivity.
  - rewrite H3 by reflexivity. reflexivity.
Defined.
